(** * Huffman coding visualizer: the tree construction engine of [huffman.js]

    A shallow embedding of the classes [HuffmanNode] and [HuffmanCoding].

    JavaScript objects are mutable and are passed by reference, so the nodes
    live in an explicit store: a [HuffmanNode] instance is an address into
    [heap], [new HuffmanNode(...)] allocates the next address, and a field
    assignment overwrites one cell.  [Math.random] is an oracle [rand]: the
    k-th call of the run returns the identifier [rand k].  The engine object
    ([this]) is a record threaded through every method. *)

From stdpp Require Import gmap strings list sorting pretty.

Open Scope Z_scope.

(** ** Data model *)

(** An object reference to a [HuffmanNode]; [None : option loc] is [null]. *)
Definition loc := nat.

Module HuffmanNode.

(** The five fields set by the constructor.  [char] is [null] on internal
    nodes; [freq] is an integer-valued JavaScript number. *)
Record t := mk {
  char : option string;
  freq : Z;
  left : option loc;
  right : option loc;
  id : string
}.

(** [!x] for an object reference [x]. *)
Definition not_ref (x : option loc) : bool :=
  match x with Some _ => false | None => true end.

(** [isLeaf() { return !this.left && !this.right; }] *)
Definition isLeaf (n : t) : bool := not_ref (left n) && not_ref (right n).

Definition set_id (i : string) (n : t) : t := mk (char n) (freq n) (left n) (right n) i.

Definition set_left (l : option loc) (n : t) : t := mk (char n) (freq n) l (right n) (id n).

Definition set_right (r : option loc) (n : t) : t := mk (char n) (freq n) (left n) r (id n).

End HuffmanNode.

(** One entry of [this.steps]: [{description, nodes, highlightNodes}].
    [nodes] is [null] or an array of (possibly null) node references. *)
Record Step := mkStep {
  description : string;
  nodes : option (list (option loc));
  highlightNodes : list string
}.

(** The fields of a [HuffmanCoding] instance.  [codes] is a [Map] keyed by
    [node.char]; [animationTimeout] is a timer handle or [null]. *)
Record HuffmanCoding := mkEngine {
  codes : gmap (option string) string;
  steps : list Step;
  currentStep : Z;
  animationSpeed : Z;
  isPlaying : bool;
  animationTimeout : option nat
}.

(** [constructor()] *)
Definition new_HuffmanCoding : HuffmanCoding :=
  mkEngine ∅ [] 0 500 false None.

Definition set_codes (c : gmap (option string) string) (e : HuffmanCoding) : HuffmanCoding :=
  mkEngine c (steps e) (currentStep e) (animationSpeed e) (isPlaying e) (animationTimeout e).

Definition set_steps (l : list Step) (e : HuffmanCoding) : HuffmanCoding :=
  mkEngine (codes e) l (currentStep e) (animationSpeed e) (isPlaying e) (animationTimeout e).

Definition set_currentStep (c : Z) (e : HuffmanCoding) : HuffmanCoding :=
  mkEngine (codes e) (steps e) c (animationSpeed e) (isPlaying e) (animationTimeout e).

(** The whole program state: the object store, the number of [Math.random]
    calls made so far, and the engine instance. *)
Record State := mkState {
  heap : list HuffmanNode.t;
  draws : nat;
  this : HuffmanCoding
}.

(** ** Effects *)

(** A method call finishes normally with a value, throws (a [TypeError] on a
    [null]/[undefined] receiver), or is [Stuck]: the embedding ran out of
    recursion fuel or followed an address that was never allocated.  [Stuck]
    has no counterpart in JavaScript; the theorems below show it is not
    reached from states the program builds. *)
Inductive outcome (A : Type) : Type :=
| Done (a : A) (s : State)
| Throws (s : State)
| Stuck.

Arguments Done {A} a s.
Arguments Throws {A} s.
Arguments Stuck {A}.

Definition M (A : Type) : Type := State → outcome A.

Definition ret {A} (a : A) : M A := λ s, Done a s.

Definition bind {A B} (m : M A) (k : A → M B) : M B :=
  λ s, match m s with
       | Done a s' => k a s'
       | Throws s' => Throws s'
       | Stuck => Stuck
       end.

Definition throw {A} : M A := λ s, Throws s.

Definition stuck {A} : M A := λ _, Stuck.

(** Sequencing: [let* x := m in k] and [m ;;; k]. *)
Declare Scope js_scope.
Delimit Scope js_scope with js.
Notation "'let*' x := m 'in' k" := (bind m (λ x, k))
  (at level 10, x pattern, m at level 100, k at level 200) : js_scope.
Notation "m ;;; k" := (bind m (λ _, k))
  (at level 100, k at level 200, right associativity) : js_scope.
Open Scope js_scope.

(** [array.map(f)], left to right. *)
Fixpoint mapM {A B} (f : A → M B) (l : list A) : M (list B) :=
  match l with
  | [] => ret []
  | x :: l' => let* y := f x in let* ys := mapM f l' in ret (y :: ys)
  end.

(** Field read [a.f] and field assignment [a.f = v] on an allocated node. *)
Definition read (a : loc) : M HuffmanNode.t :=
  λ s, match heap s !! a with
       | Some o => Done o s
       | None => Stuck
       end.

Definition assign (a : loc) (f : HuffmanNode.t → HuffmanNode.t) : M unit :=
  λ s, match heap s !! a with
       | Some o => Done tt (mkState (<[a := f o]> (heap s)) (draws s) (this s))
       | None => Stuck
       end.

(** Update of the engine's own fields. *)
Definition modify_this (f : HuffmanCoding → HuffmanCoding) : M unit :=
  λ s, Done tt (mkState (heap s) (draws s) (f (this s))).

(** ** The constructor and the methods that build the tree *)

Section Engine.

(** The identifier produced by the k-th call of
    [Math.random().toString(36).substr(2, 9)]. *)
Variable rand : nat → string.

(** [new HuffmanNode(char, freq, left, right)]: a fresh object whose [id]
    is the next random identifier. *)
Definition new_HuffmanNode (char : option string) (freq : Z)
    (left right : option loc) : M loc :=
  λ s, Done (length (heap s))
         (mkState (heap s ++ [HuffmanNode.mk char freq left right (rand (draws s))])
                  (S (draws s)) (this s)).

(** [cloneNode(node)]; the recursion follows references, so it carries
    fuel. *)
Fixpoint cloneNode (fuel : nat) (node : option loc) : M (option loc) :=
  match node with
  | None => ret None
  | Some a =>
    match fuel with
    | O => stuck
    | S fuel' =>
      let* o := read a in
      let* clone := new_HuffmanNode (HuffmanNode.char o) (HuffmanNode.freq o) None None in
      let* o := read a in
      assign clone (HuffmanNode.set_id (HuffmanNode.id o)) ;;;
      let* o := read a in
      let* l := cloneNode fuel' (HuffmanNode.left o) in
      assign clone (HuffmanNode.set_left l) ;;;
      let* o := read a in
      let* r := cloneNode fuel' (HuffmanNode.right o) in
      assign clone (HuffmanNode.set_right r) ;;;
      ret (Some clone)
    end
  end.

(** [addStep(description, nodes = null, highlightNodes = [])].  No chain of
    child references is longer than the store, so the store's size is
    enough fuel for each clone. *)
Definition addStep (description : string) (nodes : option (list loc))
    (highlightNodes : list string) : M unit :=
  λ s,
    (let* snapshot :=
       match nodes with
       | Some ns =>
         let* cs := mapM (λ n, cloneNode (length (heap s)) (Some n)) ns in
         ret (Some cs)
       | None => ret None
       end in
     modify_this (λ e, set_steps (steps e ++ [mkStep description snapshot highlightNodes]) e)) s.

(** [a.freq] for an element [a] of the array [nodes]. *)
Definition freq_at (h : list HuffmanNode.t) (a : loc) : Z :=
  from_option HuffmanNode.freq 0 (h !! a).

(** [nodes.sort((a, b) => a.freq - b.freq)]: [Array.prototype.sort] is
    stable, so with this comparator the result is the stable ascending
    arrangement by [freq], which insertion from the right computes. *)
Fixpoint insert_by_freq (h : list HuffmanNode.t) (x : loc) (l : list loc) : list loc :=
  match l with
  | [] => [x]
  | y :: l' =>
    if decide (freq_at h x ≤ freq_at h y) then x :: l else y :: insert_by_freq h x l'
  end.

Definition sort_by_freq (h : list HuffmanNode.t) (l : list loc) : list loc :=
  foldr (insert_by_freq h) [] l.

Definition sort (l : list loc) : M (list loc) := λ s, Done (sort_by_freq (heap s) l) s.

(** [x.char || 'internal'] *)
Definition char_or_internal (c : option string) : string :=
  match c with
  | Some EmptyString | None => "internal"
  | Some c => c
  end.

(** The template literal of the merge step, from [left.char], [left.freq],
    [right.char] and [right.freq]. *)
Definition combining (lc : option string) (lf : Z) (rc : option string) (rf : Z) : string :=
  "Combining nodes '" +:+ char_or_internal lc +:+ "' (" +:+ pretty lf +:+ ") and '"
    +:+ char_or_internal rc +:+ "' (" +:+ pretty rf +:+ ")".

(** The body of the [while] loop of [buildTree], lines 54 to 67, on the
    local array [nodes]; it returns the array as the iteration leaves it. *)
Definition merge_iteration (nodes : list loc) : M (list loc) :=
  let* nodes := sort nodes in
  match nodes with
  | left_ :: right_ :: nodes =>
    let* l := read left_ in
    let* r := read right_ in
    let* shown := new_HuffmanNode None (HuffmanNode.freq l + HuffmanNode.freq r)
                    (Some left_) (Some right_) in
    addStep (combining (HuffmanNode.char l) (HuffmanNode.freq l)
                       (HuffmanNode.char r) (HuffmanNode.freq r))
            (Some (shown :: nodes))
            [HuffmanNode.id l; HuffmanNode.id r] ;;;
    let* l := read left_ in
    let* r := read right_ in
    let* internalNode := new_HuffmanNode None (HuffmanNode.freq l + HuffmanNode.freq r)
                           (Some left_) (Some right_) in
    ret (internalNode :: nodes)
  | _ => throw
  end.

(** [while (nodes.length > 1) { ... }] *)
Fixpoint merge_loop (fuel : nat) (nodes : list loc) : M (list loc) :=
  if decide (1 < length nodes)%nat then
    match fuel with
    | O => stuck
    | S fuel' => let* nodes := merge_iteration nodes in merge_loop fuel' nodes
    end
  else ret nodes.

(** [buildTree(freqMap)].  The [Map] is the list of its entries in
    insertion order; the result is [nodes[0]], [undefined] on an empty
    array.  Every iteration shortens [nodes] by one, so its length bounds
    the number of iterations. *)
Definition buildTree (freqMap : list (string * Z)) : M (option loc) :=
  modify_this (set_steps []) ;;;
  modify_this (set_currentStep 0) ;;;
  let* nodes := mapM (λ '(char, freq), new_HuffmanNode (Some char) freq None None) freqMap in
  let* nodes := sort nodes in
  addStep "Starting with the following nodes:" (Some nodes) [] ;;;
  let* nodes := merge_loop (length nodes) nodes in
  addStep "Huffman tree construction complete!" None [] ;;;
  ret (head nodes).

(** [generateCodes(node, path = '')] *)
Fixpoint generateCodes_rec (fuel : nat) (node : option loc) (path : string) : M unit :=
  match node with
  | None => throw
  | Some a =>
    match fuel with
    | O => stuck
    | S fuel' =>
      let* o := read a in
      if HuffmanNode.isLeaf o then
        modify_this (λ e, set_codes (<[HuffmanNode.char o := path]> (codes e)) e)
      else
        let* o := read a in
        generateCodes_rec fuel' (HuffmanNode.left o) (path +:+ "0") ;;;
        let* o := read a in
        generateCodes_rec fuel' (HuffmanNode.right o) (path +:+ "1")
    end
  end.

Definition generateCodes (node : option loc) (path : string) : M unit :=
  λ s, generateCodes_rec (length (heap s)) node path s.

End Engine.

(** ** Navigation: methods that touch only the engine's own fields *)

(** [getCurrentStep()]; [undefined] when the index is out of range. *)
Definition getCurrentStep (e : HuffmanCoding) : option Step :=
  if decide (0 ≤ currentStep e) then steps e !! Z.to_nat (currentStep e) else None.

(** [nextStep()] *)
Definition nextStep (e : HuffmanCoding) : bool * HuffmanCoding :=
  if decide (currentStep e < Z.of_nat (length (steps e)) - 1)
  then (true, set_currentStep (currentStep e + 1) e)
  else (false, e).

(** [prevStep()] *)
Definition prevStep (e : HuffmanCoding) : bool * HuffmanCoding :=
  if decide (currentStep e > 0)
  then (true, set_currentStep (currentStep e - 1) e)
  else (false, e).

(** [reset()]; [clearTimeout] cancels a timer outside this state. *)
Definition reset (e : HuffmanCoding) : HuffmanCoding :=
  mkEngine ∅ (steps e) 0 (animationSpeed e) false None.

(** * Specification vocabulary *)

(** The finite tree hanging from a reference: [Null] for [null], otherwise
    the node's fields and the trees of its two children. *)
Inductive tree : Type :=
| Null
| Node (l : tree) (c : option string) (f : Z) (i : string) (r : tree).

(** The longest chain of child references, and the number of objects. *)
Fixpoint height (t : tree) : nat :=
  match t with
  | Null => 0
  | Node l _ _ _ r => S (height l `max` height r)
  end.

Fixpoint size (t : tree) : nat :=
  match t with
  | Null => 0
  | Node l _ _ _ r => S (size l + size r)
  end.

(** [repr P h p t]: in store [h] the reference [p] denotes [t], and every
    object of the structure sits at an address satisfying [P]. *)
Fixpoint repr (P : loc → Prop) (h : list HuffmanNode.t) (p : option loc) (t : tree) : Prop :=
  match t with
  | Null => p = None
  | Node l c f i r =>
    ∃ a o, p = Some a ∧ P a ∧ h !! a = Some o
      ∧ HuffmanNode.char o = c ∧ HuffmanNode.freq o = f ∧ HuffmanNode.id o = i
      ∧ repr P h (HuffmanNode.left o) l ∧ repr P h (HuffmanNode.right o) r
  end.

(** No constraint on where the objects sit. *)
Definition anywhere : loc → Prop := λ _, True.

(** The array [ns] of live roots denotes the trees [ts]; no tree is higher
    than the store is long. *)
Definition forest (h : list HuffmanNode.t) (ns : list loc) (ts : list tree) : Prop :=
  Forall2 (λ p t, repr anywhere h (Some p) t ∧ (height t ≤ length h)%nat) ns ts.

(** The fields [freq], [id] and [char] of a root, and the merge of two
    trees under a root with identifier [i]. *)
Definition root_freq (t : tree) : Z :=
  match t with Null => 0 | Node _ _ f _ _ => f end.

Definition root_id (t : tree) : string :=
  match t with Null => "" | Node _ _ _ i _ => i end.

Definition root_char (t : tree) : option string :=
  match t with Null => None | Node _ c _ _ _ => c end.

Definition merged (i : string) (a b : tree) : tree :=
  Node a None (root_freq a + root_freq b) i b.

(** The merge steps a run of the loop records, read in store [h]: from the
    forest [ts] the two roots [a], [b] of lowest frequency are taken out
    ([a] first), the step shows their merge in front of the remaining roots
    and highlights the identifiers of [a] and [b], and the loop goes on with
    the merged root and the rest until one tree [t] is left. *)
Inductive merge_trace (h : list HuffmanNode.t) : list tree → list Step → tree → Prop :=
| trace_done t : merge_trace h [t] [] t
| trace_merge ts a b rest i i' qs st t :
    ts ≡ₚ a :: b :: rest →
    root_freq a ≤ root_freq b →
    Forall (λ x, root_freq b ≤ root_freq x) rest →
    Forall2 (repr anywhere h) qs (merged i' a b :: rest) →
    merge_trace h (merged i a b :: rest) st t →
    merge_trace h ts
      (mkStep (combining (root_char a) (root_freq a) (root_char b) (root_freq b))
              (Some qs) [root_id a; root_id b] :: st) t.

(** The order the comparator [(a, b) => a.freq - b.freq] sorts by. *)
Definition freq_le (h : list HuffmanNode.t) : relation loc :=
  λ x y, freq_at h x ≤ freq_at h y.

(** The sum of a list of frequencies. *)
Definition Zsum (l : list Z) : Z := foldr Z.add 0 l.

(** A tree in which every node is a leaf or has two children. *)
Inductive proper : tree → Prop :=
| proper_leaf c f i : proper (Node Null c f i Null)
| proper_node l c f i r : proper l → proper r → proper (Node l c f i r).

(** The symbols at the leaves, left to right. *)
Fixpoint symbols (t : tree) : list (option string) :=
  match t with
  | Null => []
  | Node l c _ _ r =>
    match l, r with
    | Null, Null => [c]
    | _, _ => symbols l ++ symbols r
    end
  end.

(** The bindings [generateCodes] makes on a tree, in the order it makes
    them, starting from [path]. *)
Fixpoint tree_codes (t : tree) (path : string) : list (option string * string) :=
  match t with
  | Null => []
  | Node l c _ _ r =>
    match l, r with
    | Null, Null => [(c, path)]
    | _, _ => tree_codes l (path +:+ "0") ++ tree_codes r (path +:+ "1")
    end
  end.

(** [codes.set(k, v)] for each binding in turn. *)
Definition bind_codes (cs : gmap (option string) string)
    (l : list (option string * string)) : gmap (option string) string :=
  foldl (λ m kv, <[kv.1 := kv.2]> m) cs l.

(** The tree of a leaf object. *)
Definition leaf_tree (o : HuffmanNode.t) : tree :=
  Node Null (HuffmanNode.char o) (HuffmanNode.freq o) (HuffmanNode.id o) Null.

(** ** Concrete inputs *)

(** An oracle whose draws are pairwise distinct, and a freshly constructed
    engine with an empty store. *)
Definition sample_ids (n : nat) : string := "n" +:+ pretty n.

Definition fresh_state : State := mkState [] 0 new_HuffmanCoding.

Definition table_ABC : list (string * Z) := [("A", 5); ("B", 9); ("C", 12)].




(** [nextStep] called [n] times in a row. *)
Definition nextStep_times (n : nat) (e : HuffmanCoding) : HuffmanCoding :=
  Nat.iter n (λ x, (nextStep x).2) e.

(** An engine with a log of three steps and the cursor at 0. *)
Definition three_step_engine : HuffmanCoding :=
  mkEngine ∅ [mkStep "a" None []; mkStep "b" None []; mkStep "c" None []] 0 500 false None.

(** [buildTree(freqMap)] followed by [generateCodes(root)], as a caller
    runs them one after the other. *)
Definition build_and_derive (rand : nat → string) (freqMap : list (string * Z))
    (s : State) : State :=
  match buildTree rand freqMap s with
  | Done root s1 =>
    match generateCodes root "" s1 with
    | Done _ s2 => s2
    | _ => s1
    end
  | _ => s
  end.

Definition table_AB : list (string * Z) := [("A", 5); ("B", 9)].
Definition table_CD : list (string * Z) := [("C", 1); ("D", 2)].

(** The leaves of [table_ABC] under the first three identifiers. *)
Definition leaf_A : tree := Node Null (Some "A") 5 "n0" Null.
Definition leaf_B : tree := Node Null (Some "B") 9 "n1" Null.
Definition leaf_C : tree := Node Null (Some "C") 12 "n2" Null.

Section Runs.

Variable rand : nat → string.

(** The objects [buildTree] creates for the entries of the table, the
    first with the [d]-th random identifier. *)
Fixpoint leaf_nodes (d : nat) (freqMap : list (string * Z)) : list HuffmanNode.t :=
  match freqMap with
  | [] => []
  | (char, freq) :: m => HuffmanNode.mk (Some char) freq None None (rand d) :: leaf_nodes (S d) m
  end.



End Runs.

(** * The rest of [huffman.js] *)

(** ** [buildFrequencyMap]

    A [Map] is the list of its entries in insertion order, with distinct
    keys; a text is a string and its characters are one-character
    strings. *)

(** [freqMap.get(k)]; [undefined] is [None]. *)
Fixpoint Map_get (m : list (string * Z)) (k : string) : option Z :=
  match m with
  | [] => None
  | (k', v) :: m' => if decide (k' = k) then Some v else Map_get m' k
  end.

(** [freqMap.set(k, v)]: a key already present keeps its place, a new key
    goes to the end. *)
Fixpoint Map_set (m : list (string * Z)) (k : string) (v : Z) : list (string * Z) :=
  match m with
  | [] => [(k, v)]
  | (k', v') :: m' => if decide (k' = k) then (k, v) :: m' else (k', v') :: Map_set m' k v
  end.

(** [x || 0] for [x] a number or [undefined]. *)
Definition or_zero (x : option Z) : Z :=
  match x with
  | Some v => if decide (v = 0) then 0 else v
  | None => 0
  end.

(** [for (const char of text)]: the characters of the text, in order. *)
Fixpoint chars (text : string) : list string :=
  match text with
  | EmptyString => []
  | String a text' => String a EmptyString :: chars text'
  end.

(** [buildFrequencyMap(text)] *)
Definition buildFrequencyMap (text : string) : list (string * Z) :=
  foldl (λ freqMap char, Map_set freqMap char (or_zero (Map_get freqMap char) + 1))
        [] (chars text).

(** How often [c] occurs in a list of characters. *)
Definition occurrences (c : string) (l : list string) : nat :=
  length (filter (λ x, x = c) l).

(** ** Shape of the trees [buildTree] makes *)



(** A string of the characters ['0'] and ['1'] only. *)
Fixpoint is_binary (code : string) : bool :=
  match code with
  | EmptyString => true
  | String a code' =>
    (bool_decide (String a "" = "0") || bool_decide (String a "" = "1")) && is_binary code'
  end.

(** The stable ascending sort by [freq], on trees. *)
Fixpoint insert_tree (x : tree) (l : list tree) : list tree :=
  match l with
  | [] => [x]
  | y :: l' => if decide (root_freq x ≤ root_freq y) then x :: l else y :: insert_tree x l'
  end.

Definition sort_trees (l : list tree) : list tree := foldr insert_tree [] l.

(** A store with the leaf A:5 and a node whose only child, the left one, is
    that leaf. *)
Definition one_child_state : State :=
  mkState [HuffmanNode.mk (Some "A") 5 None None "n0";
           HuffmanNode.mk None 5 (Some 0%nat) None "n1"] 2 new_HuffmanCoding.

(** ** Auto-play: [play], [pause], [setAnimationSpeed], [reset] and the timers

    [setTimeout] and [clearTimeout] belong to the page the engine runs in.
    The page is modelled by the timers that are pending, each with the delay
    it was given, the next timer handle (handles are positive integers), and
    a count of the calls of [callback].  The arrow function [playStep]
    closes over [callback]; a timer keeps whether one was given.  [callback]
    is taken to be a function that calls no method of the engine. *)

Record Timer := mkTimer {
  handle : nat;
  delay : Z;
  notifies : bool
}.

Record Page := mkPage {
  engine : HuffmanCoding;
  timers : list Timer;
  next_handle : nat;
  calls : nat
}.

Definition set_isPlaying (b : bool) (e : HuffmanCoding) : HuffmanCoding :=
  mkEngine (codes e) (steps e) (currentStep e) (animationSpeed e) b (animationTimeout e).
Definition set_animationTimeout (t : option nat) (e : HuffmanCoding) : HuffmanCoding :=
  mkEngine (codes e) (steps e) (currentStep e) (animationSpeed e) (isPlaying e) t.
Definition set_animationSpeed (v : Z) (e : HuffmanCoding) : HuffmanCoding :=
  mkEngine (codes e) (steps e) (currentStep e) v (isPlaying e) (animationTimeout e).

(** An update of the engine's fields inside the page. *)
Definition with_engine (f : HuffmanCoding → HuffmanCoding) (p : Page) : Page :=
  mkPage (f (engine p)) (timers p) (next_handle p) (calls p).

(** [if (callback) callback();] *)
Definition call_back (notify : bool) (p : Page) : Page :=
  mkPage (engine p) (timers p) (next_handle p) (if notify then S (calls p) else calls p).

(** [setTimeout(() => { playStep(); }, delay)]: the new handle and the page
    with the timer pending. *)
Definition setTimeout (delay : Z) (notify : bool) (p : Page) : nat * Page :=
  (next_handle p,
   mkPage (engine p) (timers p ++ [mkTimer (next_handle p) delay notify])
          (S (next_handle p)) (calls p)).

(** [clearTimeout(h)]; nothing happens when no such timer is pending. *)
Definition clearTimeout (h : nat) (p : Page) : Page :=
  mkPage (engine p) (filter (λ t, handle t ≠ h) (timers p)) (next_handle p) (calls p).

(** [if (this.animationTimeout)]: [null] and 0 are falsy. *)
Definition truthy_handle (t : option nat) : bool :=
  match t with
  | Some (S _) => true
  | _ => false
  end.

(** The arrow function [playStep] of [play(callback)]. *)
Definition playStep (notify : bool) (p : Page) : Page :=
  let moved := (nextStep (engine p)).1 in
  let p := with_engine (λ e, (nextStep e).2) p in
  if negb moved || negb (isPlaying (engine p)) then
    call_back notify (with_engine (set_isPlaying false) p)
  else
    let p := call_back notify p in
    let hp := setTimeout (animationSpeed (engine p)) notify p in
    with_engine (set_animationTimeout (Some hp.1)) hp.2.

(** [play(callback)] *)
Definition play (notify : bool) (p : Page) : Page :=
  if isPlaying (engine p) then p
  else playStep notify (with_engine (set_isPlaying true) p).

(** [pause()] *)
Definition pause (p : Page) : Page :=
  let p := with_engine (set_isPlaying false) p in
  if truthy_handle (animationTimeout (engine p)) then
    with_engine (set_animationTimeout None)
      (clearTimeout (default 0%nat (animationTimeout (engine p))) p)
  else p.

(** [setAnimationSpeed(speed)] *)
Definition setAnimationSpeed (speed : Z) (p : Page) : Page :=
  with_engine (set_animationSpeed (speed * 2)) p.

(** [reset()] with its [clearTimeout]. *)
Definition reset_page (p : Page) : Page :=
  let p := with_engine (set_currentStep 0) p in
  let p := with_engine (set_codes ∅) p in
  let p :=
    if truthy_handle (animationTimeout (engine p)) then
      with_engine (set_animationTimeout None)
        (clearTimeout (default 0%nat (animationTimeout (engine p))) p)
    else p in
  with_engine (set_isPlaying false) p.

(** The pending timer with handle [h] expires: it is no longer pending and
    its function runs.  [None] when no such timer is pending. *)
Definition fire (h : nat) (p : Page) : option Page :=
  match list_find (λ t, handle t = h) (timers p) with
  | Some (_, t) => Some (playStep (notifies t) (clearTimeout h p))
  | None => None
  end.

(** The pending timers expire one after the other, [n] times. *)
Fixpoint run_timers (n : nat) (p : Page) : Page :=
  match n with
  | O => p
  | S n' =>
    match timers p with
    | [] => p
    | t :: _ => from_option (run_timers n') p (fire (handle t) p)
    end
  end.

(** What can happen to a page: a call of one of the four methods, a timer
    that expires, or any other method of the engine, which leaves
    [isPlaying] and [animationTimeout] alone. *)
Inductive page_event : Page → Page → Prop :=
| event_play notify p : page_event p (play notify p)
| event_pause p : page_event p (pause p)
| event_reset p : page_event p (reset_page p)
| event_speed speed p : page_event p (setAnimationSpeed speed p)
| event_fire h p p' : fire h p = Some p' → page_event p p'
| event_engine f p :
    (∀ e, isPlaying (f e) = isPlaying e ∧ animationTimeout (f e) = animationTimeout e) →
    page_event p (with_engine f p).


(** At most one timer is pending, and one is pending exactly while the
    engine is playing; its handle is the one the engine holds. *)
Definition one_timer_at_most (p : Page) : Prop :=
  (0 < next_handle p)%nat
  ∧ (∀ h, animationTimeout (engine p) = Some h → (0 < h < next_handle p)%nat)
  ∧ ((timers p = [] ∧ isPlaying (engine p) = false)
     ∨ ∃ t, timers p = [t]
            ∧ animationTimeout (engine p) = Some (handle t)
            ∧ isPlaying (engine p) = true).

(** A page whose engine has a log of three steps, before and after
    [play(callback)]. *)
Definition loaded_page : Page := mkPage three_step_engine [] 1 0.
Definition playing_page : Page := play true loaded_page.

(** * Facts about the embedding *)

(** ** Sequencing and the store *)


Lemma bind_eq {A B} (m : M A) (k : A → M B) s a s1 :
  m s = Done a s1 → bind m k s = k a s1.
Proof. unfold bind. by intros ->. Qed.

Lemma repr_mono (P Q : loc → Prop) h p t :
  (∀ a, P a → Q a) → repr P h p t → repr Q h p t.
Proof.
  intros HPQ. revert p. induction t as [|l IHl c f i r IHr]; intros p; simpl; [done|].
  intros (a & o & -> & HP & Ha & Hc & Hf & Hi & Hl & Hr).
  exists a, o. split_and!; eauto.
Qed.

Lemma repr_ext (P : loc → Prop) h h' p t :
  (∀ a o, P a → h !! a = Some o → h' !! a = Some o) →
  repr P h p t → repr P h' p t.
Proof.
  intros Hext. revert p. induction t as [|l IHl c f i r IHr]; intros p; simpl; [done|].
  intros (a & o & -> & HP & Ha & Hc & Hf & Hi & Hl & Hr).
  exists a, o. split_and!; eauto.
Qed.

Lemma repr_prefix (P : loc → Prop) h h' p t :
  h `prefix_of` h' → repr P h p t → repr P h' p t.
Proof.
  intros Hpre. apply repr_ext. intros a o _ Ha. by eapply prefix_lookup_Some.
Qed.

Lemma repr_app (P : loc → Prop) h h' p t :
  repr P h p t → repr P (h ++ h') p t.
Proof. apply repr_prefix. by apply prefix_app_r. Qed.

(** A reference denotes at most one tree. *)
Lemma repr_functional (P Q : loc → Prop) h p t t' :
  repr P h p t → repr Q h p t' → t = t'.
Proof.
  revert p t'. induction t as [|l IHl c f i r IHr]; intros p [|l' c' f' i' r']; simpl.
  - done.
  - intros -> (? & ? & ? & _). done.
  - intros (? & ? & -> & _) ?. done.
  - intros (a & o & -> & _ & Ha & <- & <- & <- & Hl & Hr)
           (a' & o' & [= <-] & _ & Ha' & <- & <- & <- & Hl' & Hr').
    assert (o' = o) as -> by congruence.
    f_equal; eauto.
Qed.


Lemma forest_prefix h h' ns ts :
  h `prefix_of` h' → forest h ns ts → forest h' ns ts.
Proof.
  intros Hpre Hf. eapply Forall2_impl; [exact Hf|]. intros p t [Hr Hh]. split.
  - by eapply repr_prefix.
  - apply prefix_length in Hpre. lia.
Qed.

Lemma forest_length h ns ts : forest h ns ts → length ns = length ts.
Proof. apply Forall2_length. Qed.

Lemma read_eq a o s : heap s !! a = Some o → read a s = Done o s.
Proof. unfold read. by intros ->. Qed.

Lemma assign_eq a f o s :
  heap s !! a = Some o →
  assign a f s = Done tt (mkState (<[a := f o]> (heap s)) (draws s) (this s)).
Proof. unfold assign. by intros ->. Qed.

Lemma insert_middle {A} (h : list A) x y rest :
  <[length h := y]> (h ++ x :: rest) = h ++ y :: rest.
Proof.
  rewrite insert_app_r_alt by lia. by rewrite Nat.sub_diag.
Qed.

Lemma lookup_middle_ne {A} (h : list A) x y rest a :
  a ≠ length h → (h ++ x :: rest) !! a = (h ++ y :: rest) !! a.
Proof.
  intros Hne. destruct (decide (a < length h)%nat).
  - by rewrite !lookup_app_l.
  - rewrite !lookup_app_r by lia.
    destruct (a - length h)%nat eqn:E; [lia|done].
Qed.

(** ** The sort *)

Lemma insert_by_freq_perm h x l : insert_by_freq h x l ≡ₚ x :: l.
Proof.
  induction l as [|y l IH]; simpl; [done|].
  case_decide; [done|]. rewrite IH. apply Permutation_swap.
Qed.

Lemma sort_by_freq_perm h l : sort_by_freq h l ≡ₚ l.
Proof.
  induction l as [|x l IH]; simpl; [done|].
  by rewrite insert_by_freq_perm, IH.
Qed.

Lemma insert_by_freq_sorted h x l :
  StronglySorted (freq_le h) l → StronglySorted (freq_le h) (insert_by_freq h x l).
Proof.
  induction 1 as [|y l Hs IH Hy]; simpl.
  - repeat constructor.
  - case_decide as Hxy.
    + constructor; [by constructor|]. constructor; [done|].
      eapply Forall_impl; [exact Hy|]. unfold freq_le. intros; simpl in *; lia.
    + constructor; [done|]. rewrite insert_by_freq_perm.
      constructor; [|done]. unfold freq_le. lia.
Qed.

Lemma sort_by_freq_sorted h l : StronglySorted (freq_le h) (sort_by_freq h l).
Proof.
  induction l as [|x l IH]; simpl; [constructor|].
  by apply insert_by_freq_sorted.
Qed.

(** The sort is stable: nodes of equal frequency keep their order. *)
Lemma sort_by_freq_stable h l k :
  filter (λ x, freq_at h x = k) (sort_by_freq h l) = filter (λ x, freq_at h x = k) l.
Proof.
  induction l as [|x l IH]; simpl; [done|].
  rewrite filter_cons, <- IH. clear IH.
  induction (sort_by_freq h l) as [|y l' IH]; simpl.
  - by rewrite filter_cons.
  - destruct (decide (freq_at h x ≤ freq_at h y)) as [Hxy|Hxy].
    + by rewrite (filter_cons _ x).
    + rewrite !(filter_cons _ y), IH.
      destruct (decide (freq_at h x = k)) as [Hk|Hk]; [|done].
      destruct (decide (freq_at h y = k)); [lia|done].
Qed.

Lemma sort_by_freq_length h l : length (sort_by_freq h l) = length l.
Proof. by rewrite sort_by_freq_perm. Qed.

Lemma Forall2_perm {A B} (R : A → B → Prop) l l' k :
  l ≡ₚ l' → Forall2 R l k → ∃ k', k ≡ₚ k' ∧ Forall2 R l' k'.
Proof.
  intros Hp. revert k. induction Hp as [|x l l' Hp IH|x y l|l l' l'' Hp1 IH1 Hp2 IH2]; intros k Hk.
  - exists k. split; [done|]. by apply Forall2_nil_inv_l in Hk as ->.
  - apply Forall2_cons_inv_l in Hk as (z & k0 & Hz & Hk & ->).
    destruct (IH _ Hk) as (k' & ? & ?). exists (z :: k'). split; [by f_equiv|by constructor].
  - apply Forall2_cons_inv_l in Hk as (z & k0 & Hz & Hk & ->).
    apply Forall2_cons_inv_l in Hk as (z' & k1 & Hz' & Hk & ->).
    exists (z' :: z :: k1). split; [apply Permutation_swap|by repeat constructor].
  - destruct (IH1 _ Hk) as (k' & ? & Hk'). destruct (IH2 _ Hk') as (k'' & ? & ?).
    exists k''. split; [by etrans|done].
Qed.

Lemma repr_freq_at P h a t : repr P h (Some a) t → freq_at h a = root_freq t.
Proof.
  destruct t as [|l c f i r]; simpl; [done|].
  intros (a' & o & [= <-] & _ & Ha & _ & Hf & _). unfold freq_at. by rewrite Ha.
Qed.

Lemma forest_sorted h ps ts :
  forest h ps ts → StronglySorted (freq_le h) ps →
  StronglySorted (λ a b, root_freq a ≤ root_freq b) ts.
Proof.
  unfold forest. induction 1 as [|p t ps ts [Hp _] Hf IH]; [constructor|].
  intros [Hs Hall]%StronglySorted_inv. constructor; [by apply IH|].
  clear IH Hs. induction Hf as [|p' t' ps' ts' [Hp' _] Hf IH]; [constructor|].
  apply Forall_cons in Hall as [Hpp' Hall]. constructor; [|by apply IH].
  unfold freq_le in Hpp'.
  by rewrite (repr_freq_at _ _ _ _ Hp), (repr_freq_at _ _ _ _ Hp') in Hpp'.
Qed.

Lemma forest_sort h ns ts :
  forest h ns ts →
  ∃ ts', ts ≡ₚ ts' ∧ forest h (sort_by_freq h ns) ts'
         ∧ StronglySorted (λ a b, root_freq a ≤ root_freq b) ts'.
Proof.
  intros Hf.
  eapply (Forall2_perm _ ns (sort_by_freq h ns)) in Hf as (ts' & Hp & Hf');
    [|by rewrite sort_by_freq_perm].
  exists ts'. split_and!; [done..|].
  eapply forest_sorted; [exact Hf'|]. apply sort_by_freq_sorted.
Qed.

(** ** What a merge trace implies *)


Lemma proper_not_Null t : proper t → t ≠ Null.
Proof. by destruct 1. Qed.

Lemma symbols_node l c f i r :
  proper l → symbols (Node l c f i r) = symbols l ++ symbols r.
Proof. intros Hl. simpl. by destruct Hl. Qed.

Lemma trace_length h ts st t : merge_trace h ts st t → length ts = S (length st).
Proof.
  induction 1 as [t|ts a b rest i i' qs st t Hperm _ _ _ _ IH]; [done|].
  rewrite Hperm. simpl in *. lia.
Qed.



Lemma trace_proper h ts st t :
  merge_trace h ts st t → Forall proper ts → proper t.
Proof.
  induction 1 as [t|ts a b rest i i' qs st t Hperm _ _ _ _ IH]; intros Hall.
  - by apply Forall_cons in Hall as [Ht _].
  - rewrite Hperm in Hall.
    apply Forall_cons in Hall as [Ha Hall]. apply Forall_cons in Hall as [Hb Hall].
    apply IH. constructor; [|done]. by constructor.
Qed.

Lemma trace_symbols h ts st t :
  merge_trace h ts st t → Forall proper ts → symbols t ≡ₚ concat (symbols <$> ts).
Proof.
  induction 1 as [t|ts a b rest i i' qs st t Hperm _ _ _ _ IH]; intros Hall.
  - simpl. by rewrite app_nil_r.
  - rewrite Hperm in Hall.
    apply Forall_cons in Hall as [Ha Hall]. apply Forall_cons in Hall as [Hb Hall].
    rewrite IH by (constructor; [by constructor|done]).
    rewrite Hperm. simpl. unfold merged. fold (symbols a) (symbols b).
    destruct Ha; simpl; by rewrite <- ?app_assoc.
Qed.

(** ** Code derivation on trees *)

Lemma append_cons x (a b : string) : String x a +:+ b = String x (a +:+ b).
Proof. reflexivity. Qed.

Lemma append_assoc (a b c : string) : (a +:+ b) +:+ c = a +:+ (b +:+ c).
Proof. induction a as [|x a IH]; [done|]. by rewrite !append_cons, IH. Qed.

Lemma append_nil_r (a : string) : a +:+ "" = a.
Proof. induction a as [|x a IH]; [done|]. by rewrite append_cons, IH. Qed.

Lemma prefix_append (p a b : string) :
  String.prefix (p +:+ a) (p +:+ b) = String.prefix a b.
Proof.
  induction p as [|x p IH]; [done|]. rewrite !append_cons. simpl.
  destruct (Ascii.ascii_dec x x); [done|congruence].
Qed.

Lemma tree_codes_unfold l c f i r path :
  tree_codes (Node l c f i r) path =
    match l, r with
    | Null, Null => [(c, path)]
    | _, _ => tree_codes l (path +:+ "0") ++ tree_codes r (path +:+ "1")
    end.
Proof. reflexivity. Qed.

Lemma symbols_unfold l c f i r :
  symbols (Node l c f i r) =
    match l, r with
    | Null, Null => [c]
    | _, _ => symbols l ++ symbols r
    end.
Proof. reflexivity. Qed.

Lemma tree_codes_node l c f i r path :
  proper l →
  tree_codes (Node l c f i r) path
    = tree_codes l (path +:+ "0") ++ tree_codes r (path +:+ "1").
Proof. intros Hl. rewrite tree_codes_unfold. by destruct Hl. Qed.

Lemma tree_codes_keys t : ∀ path, (tree_codes t path).*1 = symbols t.
Proof.
  induction t as [|l IHl c f i r IHr]; intros path; [done|].
  rewrite tree_codes_unfold, symbols_unfold.
  assert ((tree_codes l (path +:+ "0") ++ tree_codes r (path +:+ "1")).*1
          = symbols l ++ symbols r) as Happ by (by rewrite fmap_app, IHl, IHr).
  by destruct l, r.
Qed.

(** Every code of a subtree extends the path that leads to it. *)
Lemma tree_codes_extend t : ∀ path k c,
  (k, c) ∈ tree_codes t path → ∃ w, c = path +:+ w.
Proof.
  induction t as [|l IHl c0 f i r IHr]; intros path k c.
  - by intros ?%elem_of_nil.
  - rewrite tree_codes_unfold. intros Hin.
    assert ((k, c) ∈ [(c0, path)] ∨ (k, c) ∈ tree_codes l (path +:+ "0")
            ∨ (k, c) ∈ tree_codes r (path +:+ "1")) as [H|[H|H]].
    { destruct l, r; [by left|..]; apply elem_of_app in Hin as [?|?]; auto. }
    + apply list_elem_of_singleton in H as [= -> ->]. exists "". by rewrite append_nil_r.
    + apply IHl in H as [w ->]. exists ("0" +:+ w). by rewrite append_assoc.
    + apply IHr in H as [w ->]. exists ("1" +:+ w). by rewrite append_assoc.
Qed.

(** Codes at two different leaves: neither is a prefix of the other. *)
Lemma tree_codes_prefix_free t : ∀ path n m kn cn km cm,
  tree_codes t path !! n = Some (kn, cn) →
  tree_codes t path !! m = Some (km, cm) →
  n ≠ m → String.prefix cn cm = false.
Proof.
  induction t as [|l IHl c0 f i r IHr]; intros path n m kn cn km cm; [done|].
  rewrite tree_codes_unfold.
  assert (∀ x y kx cx ky cy,
    tree_codes l (path +:+ "0") !! x = Some (kx, cx) →
    tree_codes r (path +:+ "1") !! y = Some (ky, cy) →
    String.prefix cx cy = false ∧ String.prefix cy cx = false) as Hcross.
  { intros x y kx cx ky cy Hx%list_elem_of_lookup_2 Hy%list_elem_of_lookup_2.
    apply tree_codes_extend in Hx as [wx ->]. apply tree_codes_extend in Hy as [wy ->].
    by rewrite !append_assoc, !prefix_append. }
  assert (∀ n m,
    (tree_codes l (path +:+ "0") ++ tree_codes r (path +:+ "1")) !! n = Some (kn, cn) →
    (tree_codes l (path +:+ "0") ++ tree_codes r (path +:+ "1")) !! m = Some (km, cm) →
    n ≠ m → String.prefix cn cm = false) as Happ.
  { clear n m. intros n m Hn Hm Hne.
    apply lookup_app_Some in Hn as [Hn|[Hln Hn]];
      apply lookup_app_Some in Hm as [Hm|[Hlm Hm]].
    - by eapply IHl.
    - by destruct (Hcross _ _ _ _ _ _ Hn Hm).
    - by destruct (Hcross _ _ _ _ _ _ Hm Hn).
    - eapply IHr; [exact Hn|exact Hm|lia]. }
  destruct l, r; try apply Happ.
  intros Hn Hm Hne. apply list_lookup_singleton_Some in Hn as [-> _].
  apply list_lookup_singleton_Some in Hm as [-> _]. done.
Qed.

Lemma bind_codes_app cs l1 l2 :
  bind_codes cs (l1 ++ l2) = bind_codes (bind_codes cs l1) l2.
Proof. apply foldl_app. Qed.

Lemma bind_codes_notin l : ∀ cs k, k ∉ l.*1 → bind_codes cs l !! k = cs !! k.
Proof.
  induction l as [|[k0 v0] l IH]; intros cs k Hk; simpl; [done|].
  rewrite fmap_cons, not_elem_of_cons in Hk. destruct Hk as [Hne Hk]. simpl in *.
  rewrite IH by done. by rewrite lookup_insert_ne.
Qed.

Lemma bind_codes_lookup l : ∀ cs k v,
  NoDup l.*1 → (k, v) ∈ l → bind_codes cs l !! k = Some v.
Proof.
  induction l as [|[k0 v0] l IH]; intros cs k v Hnd Hin; simpl.
  - by apply elem_of_nil in Hin.
  - rewrite fmap_cons in Hnd. apply NoDup_cons in Hnd as [Hk0 Hnd].
    apply elem_of_cons in Hin as [[= -> ->]|Hin].
    + rewrite bind_codes_notin by done. by rewrite lookup_insert_eq.
    + by apply IH.
Qed.

Lemma bind_codes_is_Some l : ∀ cs k, is_Some (cs !! k) → is_Some (bind_codes cs l !! k).
Proof.
  induction l as [|[k0 v0] l IH]; intros cs k Hk; simpl; [done|].
  apply IH. rewrite lookup_insert. case_decide; [by eexists|done].
Qed.

Lemma repr_proper_Some P h p t : proper t → repr P h p t → ∃ a, p = Some a.
Proof. destruct 1; simpl; intros (a & o & -> & _); eauto. Qed.

(** [generateCodes] on a reference that denotes a proper tree: it returns
    and makes exactly the bindings of [tree_codes], touching nothing else. *)
Lemma generateCodes_rec_spec t :
  proper t → ∀ fuel p path s,
  repr anywhere (heap s) p t → (height t ≤ fuel)%nat →
  generateCodes_rec fuel p path s
    = Done tt (mkState (heap s) (draws s)
                 (set_codes (bind_codes (codes (this s)) (tree_codes t path)) (this s))).
Proof.
  induction 1 as [c f i|l c f i r Hl IHl Hr IHr]; intros fuel p path [h d e] Hrep Hfuel.
  - destruct Hrep as (a & o & -> & _ & Ha & Hc & _ & _ & Hleft & Hright).
    simpl in Hleft, Hright, Hfuel. destruct fuel as [|fuel]; [lia|]. simpl.
    erewrite bind_eq by (by apply read_eq).
    unfold HuffmanNode.isLeaf. rewrite Hleft, Hright, Hc. reflexivity.
  - destruct Hrep as (a & o & -> & _ & Ha & Hc & _ & _ & Hleft & Hright).
    simpl in Hfuel. destruct fuel as [|fuel]; [lia|].
    destruct (repr_proper_Some _ _ _ _ Hl Hleft) as [al Eal].
    assert (HuffmanNode.isLeaf o = false) as Hleaf
      by (unfold HuffmanNode.isLeaf; by rewrite Eal).
    rewrite tree_codes_node by done. simpl.
    erewrite bind_eq by (by apply read_eq).
    rewrite Hleaf.
    erewrite bind_eq by (by apply read_eq).
    erewrite bind_eq by (apply IHl; [exact Hleft|lia]). simpl.
    erewrite bind_eq by (by apply read_eq).
    etrans; [apply IHr; [exact Hright|lia]|]. simpl.
    by rewrite bind_codes_app.
Qed.

Lemma generateCodes_spec t a path s :
  proper t → repr anywhere (heap s) (Some a) t → (height t ≤ length (heap s))%nat →
  generateCodes (Some a) path s
    = Done tt (mkState (heap s) (draws s)
                 (set_codes (bind_codes (codes (this s)) (tree_codes t path)) (this s))).
Proof. intros. unfold generateCodes. by apply generateCodes_rec_spec. Qed.

(** ** The methods of the engine *)

Section EngineFacts.

Variable rand : nat → string.

(** [cloneNode] on a reference that denotes [t]: it returns, the store
    grows by [size t] new objects and nothing else changes, and the result
    denotes the same tree [t] inside the new objects only. *)
Lemma cloneNode_spec t : ∀ fuel p s,
  repr anywhere (heap s) p t → (height t ≤ fuel)%nat →
  ∃ q h',
    cloneNode rand fuel p s
      = Done q (mkState (heap s ++ h') (draws s + size t) (this s))
    ∧ length h' = size t
    ∧ repr (λ a, length (heap s) ≤ a)%nat (heap s ++ h') q t.
Proof.
  induction t as [|l IHl c f i r IHr]; intros fuel p [h d e] Hrep Hfuel; simpl in *.
  - subst p. exists None, []. rewrite app_nil_r, Nat.add_0_r. by destruct fuel.
  - destruct Hrep as (a & o & -> & _ & Ha & Hc & Hf & Hi & Hl & Hr).
    destruct fuel as [|fuel]; [lia|]. simpl.
    set (n1 := HuffmanNode.mk c f None None i).
    erewrite bind_eq by (by apply read_eq).
    erewrite bind_eq by reflexivity. simpl.
    erewrite bind_eq by (apply read_eq; simpl; by apply lookup_app_l_Some).
    erewrite bind_eq by (apply assign_eq; simpl; by apply list_lookup_middle).
    simpl. rewrite insert_middle. rewrite Hc, Hf, Hi.
    unfold HuffmanNode.set_id; simpl. fold n1.
    erewrite bind_eq by (apply read_eq; simpl; by apply lookup_app_l_Some).
    destruct (IHl fuel (HuffmanNode.left o) (mkState (h ++ [n1]) (S d) e))
      as (ql & hl & El & Hlen_l & Hql); [by apply repr_app|lia|].
    simpl in El, Hql. rewrite <- app_assoc in El, Hql. simpl in El, Hql.
    erewrite bind_eq by exact El.
    erewrite bind_eq by (apply assign_eq; simpl; by apply list_lookup_middle).
    simpl. rewrite insert_middle. unfold HuffmanNode.set_left; simpl.
    set (n2 := HuffmanNode.mk c f ql None i).
    erewrite bind_eq by (apply read_eq; simpl; by apply lookup_app_l_Some).
    destruct (IHr fuel (HuffmanNode.right o)
                (mkState (h ++ n2 :: hl) (S (d + size l)) e))
      as (qr & hr & Er & Hlen_r & Hqr); [by apply repr_app|lia|].
    simpl in Er, Hqr. rewrite <- app_assoc in Er, Hqr. simpl in Er, Hqr.
    erewrite bind_eq by exact Er.
    erewrite bind_eq by (apply assign_eq; simpl; by apply list_lookup_middle).
    simpl. rewrite insert_middle. unfold HuffmanNode.set_right; simpl.
    set (n3 := HuffmanNode.mk c f ql qr i).
    exists (Some (length h)), (n3 :: hl ++ hr). split_and!.
    + unfold ret. do 2 f_equal. lia.
    + simpl. rewrite length_app. lia.
    + exists (length h), n3. split_and!; try done.
      * by apply list_lookup_middle.
      * simpl. rewrite length_app in Hql. simpl in Hql.
        eapply repr_mono; [|eapply repr_ext; [|exact Hql]].
        -- simpl. intros; lia.
        -- simpl. intros a' o' Ha' Ho'.
           rewrite (lookup_middle_ne h n3 n1) by lia.
           replace (h ++ n1 :: hl ++ hr) with ((h ++ n1 :: hl) ++ hr)
             by (by rewrite <- app_assoc).
           by apply lookup_app_l_Some.
      * simpl. rewrite length_app in Hqr. simpl in Hqr.
        eapply repr_mono; [|eapply repr_ext; [|exact Hqr]].
        -- simpl. intros; lia.
        -- simpl. intros a' o' Ha' Ho'.
           rewrite (lookup_middle_ne h n3 n2) by lia. done.
Qed.

Lemma mapM_cloneNode_spec fuel ts : ∀ ns s,
  Forall2 (λ p t, repr anywhere (heap s) (Some p) t ∧ (height t ≤ fuel)%nat) ns ts →
  ∃ qs h',
    mapM (λ n, cloneNode rand fuel (Some n)) ns s
      = Done qs (mkState (heap s ++ h') (draws s + sum_list (size <$> ts)) (this s))
    ∧ Forall2 (repr (λ a, length (heap s) ≤ a)%nat (heap s ++ h')) qs ts.
Proof.
  induction ts as [|t ts IH]; intros ns [h d e] Hall.
  - apply Forall2_nil_inv_r in Hall as ->. exists [], []. simpl.
    rewrite app_nil_r, Nat.add_0_r. split; [done|constructor].
  - apply Forall2_cons_inv_r in Hall as (p & ns' & [Hp Hh] & Hall & ->). simpl in *.
    destruct (cloneNode_spec t fuel (Some p) (mkState h d e) Hp Hh)
      as (q & h1 & Eq & Hlen & Hq). simpl in Eq, Hq.
    erewrite bind_eq by exact Eq.
    destruct (IH ns' (mkState (h ++ h1) (d + size t) e)) as (qs & h2 & Eqs & Hqs).
    { eapply Forall2_impl; [exact Hall|]. simpl. intros ? ? [? ?]. split; [|done].
      by apply repr_app. }
    simpl in Eqs, Hqs. erewrite bind_eq by exact Eqs.
    exists (q :: qs), (h1 ++ h2). rewrite app_assoc. split.
    + unfold ret. by rewrite Nat.add_assoc.
    + constructor.
      * by apply repr_app.
      * eapply Forall2_impl; [exact Hqs|]. intros ? ?. apply repr_mono.
        intros a. rewrite length_app. lia.
Qed.

(** [addStep] with an array of live roots: it returns; one step is pushed
    whose forest denotes the same trees in objects allocated by this call;
    the store is otherwise as before. *)
Lemma addStep_spec description ns ts highlightNodes s :
  forest (heap s) ns ts →
  ∃ qs h',
    addStep rand description (Some ns) highlightNodes s
      = Done tt (mkState (heap s ++ h') (draws s + sum_list (size <$> ts))
                   (set_steps (steps (this s) ++ [mkStep description (Some qs) highlightNodes])
                              (this s)))
    ∧ Forall2 (repr (λ a, length (heap s) ≤ a)%nat (heap s ++ h')) qs ts.
Proof.
  intros Hf. unfold addStep.
  destruct (mapM_cloneNode_spec (length (heap s)) ts ns s Hf) as (qs & h' & E & Hqs).
  exists qs, h'. split; [|done].
  erewrite bind_eq; [|erewrite bind_eq by exact E; reflexivity].
  reflexivity.
Qed.

Lemma addStep_null description highlightNodes s :
  addStep rand description None highlightNodes s
    = Done tt (mkState (heap s) (draws s)
                 (set_steps (steps (this s) ++ [mkStep description None highlightNodes])
                            (this s))).
Proof. reflexivity. Qed.

Lemma repr_Some_inv P h a t :
  repr P h (Some a) t →
  ∃ o, h !! a = Some o ∧ HuffmanNode.char o = root_char t
       ∧ HuffmanNode.freq o = root_freq t ∧ HuffmanNode.id o = root_id t.
Proof.
  destruct t as [|l c f i r]; simpl; [done|].
  intros (a' & o & [= <-] & _ & Ha & Hc & Hf & Hi & _). eauto.
Qed.

Lemma repr_merged h n1 n2 a b i :
  repr anywhere h (Some n1) a → repr anywhere h (Some n2) b →
  repr anywhere
    (h ++ [HuffmanNode.mk None (root_freq a + root_freq b) (Some n1) (Some n2) i])
    (Some (length h)) (merged i a b).
Proof.
  intros Ha Hb. eexists (length h), _. split_and!.
  - done.
  - done.
  - by apply list_lookup_middle.
  - done.
  - done.
  - done.
  - by apply repr_app.
  - by apply repr_app.
Qed.

(** One iteration of the loop on a forest of at least two roots. *)
Lemma merge_iteration_spec ns ts s :
  forest (heap s) ns ts → (2 ≤ length ns)%nat →
  ∃ n1 n2 ns' a b rest qs root s',
    sort_by_freq (heap s) ns = n1 :: n2 :: ns'
    ∧ ts ≡ₚ a :: b :: rest
    ∧ forest (heap s) (n1 :: n2 :: ns') (a :: b :: rest)
    ∧ root_freq a ≤ root_freq b
    ∧ Forall (λ x, root_freq b ≤ root_freq x) rest
    ∧ merge_iteration rand ns s = Done (root :: ns') s'
    ∧ heap s `prefix_of` heap s'
    ∧ this s' = set_steps
        (steps (this s) ++
           [mkStep (combining (root_char a) (root_freq a) (root_char b) (root_freq b))
                   (Some qs) [root_id a; root_id b]]) (this s)
    ∧ Forall2 (repr (λ x, length (heap s) ≤ x)%nat (heap s')) qs
              (merged (rand (draws s)) a b :: rest)
    ∧ (length (heap s) ≤ root)%nat
    ∧ forest (heap s') (root :: ns')
        (merged (rand (S (draws s) + sum_list (size <$> merged (rand (draws s)) a b :: rest))) a b
           :: rest).
Proof.
  intros Hf Hlen. destruct s as [h d e]. simpl in *.
  destruct (forest_sort _ _ _ Hf) as (ts' & Hperm & Hfs & Hsorted).
  pose proof (sort_by_freq_length h ns) as Hl.
  destruct (sort_by_freq h ns) as [|n1 [|n2 ns']] eqn:Esort; simpl in Hl; [lia..|].
  apply Forall2_cons_inv_l in Hfs as (a & ts1 & [Ha Hha] & Hfs & ->).
  apply Forall2_cons_inv_l in Hfs as (b & rest & [Hb Hhb] & Hfs & ->).
  apply StronglySorted_inv in Hsorted as [Hsorted Hall_a].
  apply StronglySorted_inv in Hsorted as [_ Hall_b].
  apply Forall_cons in Hall_a as [Hab _].
  destruct (repr_Some_inv _ _ _ _ Ha) as (o1 & Ho1 & Hc1 & Hf1 & Hi1).
  destruct (repr_Some_inv _ _ _ _ Hb) as (o2 & Ho2 & Hc2 & Hf2 & Hi2).
  set (shown := HuffmanNode.mk None (root_freq a + root_freq b) (Some n1) (Some n2) (rand d)).
  assert (forest (h ++ [shown]) (length h :: ns') (merged (rand d) a b :: rest)) as Hshown.
  { constructor.
    - split; [by apply repr_merged|]. simpl in *. rewrite length_app. simpl. lia.
    - eapply forest_prefix; [|exact Hfs]. by apply prefix_app_r. }
  destruct (addStep_spec
              (combining (root_char a) (root_freq a) (root_char b) (root_freq b))
              _ _ [root_id a; root_id b] (mkState (h ++ [shown]) (S d) e) Hshown)
    as (qs & h2 & Eadd & Hqs).
  simpl in Eadd, Hqs.
  set (d2 := (S d + sum_list (size <$> merged (rand d) a b :: rest))%nat) in *.
  set (internalNode :=
         HuffmanNode.mk None (root_freq a + root_freq b) (Some n1) (Some n2) (rand d2)).
  exists n1, n2, ns', a, b, rest, qs, (length ((h ++ [shown]) ++ h2)).
  eexists (mkState (((h ++ [shown]) ++ h2) ++ [internalNode]) (S d2) _).
  split_and!; try done.
  - by repeat constructor.
  - unfold merge_iteration.
    erewrite bind_eq by reflexivity. simpl. rewrite Esort.
    erewrite bind_eq by (by apply read_eq).
    erewrite bind_eq by (by apply read_eq).
    erewrite bind_eq by reflexivity. simpl.
    rewrite Hc1, Hc2, Hf1, Hf2, Hi1, Hi2.
    fold shown. erewrite bind_eq by exact Eadd.
    erewrite bind_eq
      by (apply read_eq; simpl; apply lookup_app_l_Some; by apply lookup_app_l_Some).
    erewrite bind_eq
      by (apply read_eq; simpl; apply lookup_app_l_Some; by apply lookup_app_l_Some).
    erewrite bind_eq by reflexivity. simpl. rewrite Hf1, Hf2. reflexivity.
  - simpl. rewrite <- !app_assoc. by apply prefix_app_r.
  - simpl. eapply Forall2_impl; [exact Hqs|]. intros q t Hq.
    apply repr_app. eapply repr_mono; [|exact Hq]. simpl. intros x.
    rewrite length_app. simpl. lia.
  - rewrite !length_app. simpl. lia.
  - simpl. fold d2.
    assert (h `prefix_of` (h ++ [shown]) ++ h2) as Hpre.
    { rewrite <- app_assoc. by apply prefix_app_r. }
    constructor.
    + split.
      * apply repr_merged; by eapply repr_prefix.
      * simpl in *. rewrite !length_app. simpl. lia.
    + eapply forest_prefix; [|exact Hfs].
      etrans; [exact Hpre|]. by apply prefix_app_r.
Qed.

Lemma set_steps_app_nil e : set_steps (steps e ++ []) e = e.
Proof. destruct e. unfold set_steps. simpl. by rewrite app_nil_r. Qed.

Lemma set_steps_set_steps l l' e : set_steps l (set_steps l' e) = set_steps l e.
Proof. done. Qed.

(** The loop on a forest that is not empty: it returns an array with one
    root, and the steps it pushed are a [merge_trace] of the forest. *)
Lemma merge_loop_spec : ∀ fuel ns ts s,
  forest (heap s) ns ts → (1 ≤ length ns ≤ S fuel)%nat →
  ∃ root t st s',
    merge_loop rand fuel ns s = Done [root] s'
    ∧ heap s `prefix_of` heap s'
    ∧ this s' = set_steps (steps (this s) ++ st) (this s)
    ∧ forest (heap s') [root] [t]
    ∧ merge_trace (heap s') ts st t.
Proof.
  induction fuel as [|fuel IH]; intros ns ts s Hf Hlen.
  - destruct ns as [|root [|? ?]]; simpl in Hlen; [lia| |lia].
    apply Forall2_cons_inv_l in Hf as (t & ts' & Ht & ->%Forall2_nil_inv_l & ->).
    exists root, t, [], s. simpl. split_and!; try done.
    + by rewrite set_steps_app_nil.
    + constructor; [done|constructor].
    + constructor.
  - destruct (decide (1 < length ns)%nat) as [Hgt|Hle].
    + destruct (merge_iteration_spec ns ts s Hf)
        as (n1 & n2 & ns' & a & b & rest & qs & root & s1 & Esort & Hperm & Hfs & Hab
            & Hrest & Eiter & Hpre & Hthis & Hqs & Hroot & Hf1); [lia|].
      pose proof (sort_by_freq_length (heap s) ns) as Hl. rewrite Esort in Hl. simpl in Hl.
      destruct (IH (root :: ns') _ s1 Hf1) as (r & t & st & s2 & Eloop & Hpre2 & Hthis2 & Hr & Htr);
        [simpl; lia|].
      exists r, t,
        (mkStep (combining (root_char a) (root_freq a) (root_char b) (root_freq b))
                (Some qs) [root_id a; root_id b] :: st), s2.
      split_and!.
      * simpl. rewrite decide_True by done. by erewrite bind_eq by exact Eiter.
      * by etrans.
      * rewrite Hthis2, Hthis. simpl. unfold set_steps. simpl.
        by rewrite <- app_assoc.
      * done.
      * econstructor; [done..| |exact Htr].
        eapply Forall2_impl; [exact Hqs|]. intros q x Hq.
        eapply repr_prefix; [exact Hpre2|]. eapply repr_mono; [|exact Hq]. done.
    + destruct ns as [|root [|? ?]]; simpl in Hlen, Hle; [lia| |lia].
      apply Forall2_cons_inv_l in Hf as (t & ts' & Ht & ->%Forall2_nil_inv_l & ->).
      exists root, t, [], s. simpl. split_and!; try done.
      * by rewrite set_steps_app_nil.
      * constructor; [done|constructor].
      * constructor.
Qed.

Lemma leaf_nodes_length d m : length (leaf_nodes rand d m) = length m.
Proof. revert d. induction m as [|[c f] m IH]; intros d; simpl; [done|]. by rewrite IH. Qed.

Lemma new_leaves_spec : ∀ freqMap s,
  mapM (λ '(char, freq), new_HuffmanNode rand (Some char) freq None None) freqMap s
    = Done (seq (length (heap s)) (length freqMap))
        (mkState (heap s ++ leaf_nodes rand (draws s) freqMap) (draws s + length freqMap) (this s)).
Proof.
  induction freqMap as [|[c f] m IH]; intros [h d e]; simpl.
  - by rewrite app_nil_r, Nat.add_0_r.
  - erewrite bind_eq by reflexivity. simpl.
    erewrite bind_eq by apply IH. simpl.
    unfold ret. rewrite <- app_assoc. simpl.
    rewrite length_app. simpl. rewrite Nat.add_1_r, Nat.add_succ_r. done.
Qed.

Lemma repr_leaves : ∀ m h d,
  Forall2 (λ p t, repr anywhere (h ++ leaf_nodes rand d m) (Some p) t)
    (seq (length h) (length m)) (leaf_tree <$> leaf_nodes rand d m).
Proof.
  induction m as [|[c f] m IH]; intros h d; simpl; [constructor|].
  constructor.
  - eexists (length h), _. split_and!; try done. by apply list_lookup_middle.
  - specialize (IH (h ++ [HuffmanNode.mk (Some c) f None None (rand d)]) (S d)).
    rewrite length_app in IH. simpl in IH. rewrite Nat.add_1_r, <- app_assoc in IH.
    exact IH.
Qed.

Lemma forest_leaves m h d :
  forest (h ++ leaf_nodes rand d m) (seq (length h) (length m)) (leaf_tree <$> leaf_nodes rand d m).
Proof.
  pose proof (repr_leaves m h d) as Hr. unfold forest.
  apply Forall2_fmap_r. apply Forall2_fmap_r in Hr.
  eapply Forall2_impl; [exact Hr|]. intros p o Hp. split; [done|].
  simpl. rewrite length_app.
  destruct Hp as (a & o' & _ & _ & Ha & _). apply lookup_lt_Some in Ha.
  rewrite length_app in Ha. lia.
Qed.

(** [buildTree] on a table that is not empty. *)
Lemma buildTree_spec freqMap s :
  freqMap ≠ [] →
  ∃ root t ts qs st s',
    buildTree rand freqMap s = Done (Some root) s'
    ∧ heap s `prefix_of` heap s'
    ∧ this s' = set_steps
        (mkStep "Starting with the following nodes:" (Some qs) []
           :: st ++ [mkStep "Huffman tree construction complete!" None []])
        (set_currentStep 0 (this s))
    ∧ ts ≡ₚ leaf_tree <$> leaf_nodes rand (draws s) freqMap
    ∧ Forall2 (repr anywhere (heap s')) qs ts
    ∧ merge_trace (heap s') ts st t
    ∧ forest (heap s') [root] [t].
Proof.
  intros Hne. destruct s as [h d e].
  set (s1 := mkState (h ++ leaf_nodes rand d freqMap) (d + length freqMap)
               (set_currentStep 0 (set_steps [] e))).
  pose proof (forest_leaves freqMap h d) as Hleaves.
  destruct (forest_sort _ _ _ Hleaves) as (ts & Hperm & Hfs & _).
  set (ns := sort_by_freq (h ++ leaf_nodes rand d freqMap) (seq (length h) (length freqMap))) in *.
  destruct (addStep_spec "Starting with the following nodes:" ns ts [] s1 Hfs)
    as (qs & h2 & Eadd & Hqs).
  match type of Eadd with _ = Done tt ?s => set (s2 := s) in * end.
  assert (heap s1 `prefix_of` heap s2) as Hpre12 by (by apply prefix_app_r).
  destruct (merge_loop_spec (length ns) ns ts s2) as (root & t & st & s3 & Eloop & Hpre & Hthis & Hroot & Htr).
  { by eapply forest_prefix. }
  { unfold ns. rewrite sort_by_freq_length, length_seq.
    destruct freqMap; [done|simpl; lia]. }
  exists root, t, ts, qs, st.
  eexists (mkState (heap s3) (draws s3) _). split_and!.
  - unfold buildTree.
    erewrite bind_eq by reflexivity. erewrite bind_eq by reflexivity.
    erewrite bind_eq by apply new_leaves_spec.
    erewrite bind_eq by reflexivity. simpl. fold ns.
    erewrite bind_eq by exact Eadd.
    erewrite bind_eq by exact Eloop.
    erewrite bind_eq by apply addStep_null. reflexivity.
  - simpl. etrans; [|exact Hpre]. etrans; [|exact Hpre12]. by apply prefix_app_r.
  - rewrite Hthis. unfold s2. simpl. unfold set_steps, set_currentStep. simpl.
    reflexivity.
  - by symmetry.
  - simpl. eapply Forall2_impl; [exact Hqs|]. intros q x Hq.
    eapply repr_prefix; [exact Hpre|]. eapply repr_mono; [|exact Hq]. done.
  - done.
  - done.
Qed.

Lemma buildTree_empty s :
  buildTree rand [] s
    = Done None (mkState (heap s) (draws s)
        (set_steps [mkStep "Starting with the following nodes:" (Some []) [];
                    mkStep "Huffman tree construction complete!" None []]
                   (set_currentStep 0 (this s)))).
Proof. reflexivity. Qed.














End EngineFacts.

(** * The claims *)

Lemma trace_highlights h ts st t :
  merge_trace h ts st t → Forall (λ x, length (highlightNodes x) = 2%nat) st.
Proof. induction 1; by constructor. Qed.

Lemma leaf_trees_length rand d (m : list (string * Z)) ts :
  ts ≡ₚ leaf_tree <$> leaf_nodes rand d m → length ts = length m.
Proof. intros ->. by rewrite length_fmap, leaf_nodes_length. Qed.

Lemma nonempty_of_length {A} (l : list A) : (2 ≤ length l)%nat → l ≠ [].
Proof. by destruct l; simpl; [lia|]. Qed.

(** C1: on a table of at least two entries, every iteration of the merge
    loop takes the two roots [a], [b] of lowest frequency out of the forest,
    with [a.freq <= b.freq], merges them under one internal node, and its
    step highlights exactly [[a.id, b.id]] ([merge_trace], from the sorted
    leaves to the final tree); the first and the last step of the log
    highlight nothing. *)
Theorem merge_loop_takes_two_lowest rand freqMap s :
  (2 ≤ length freqMap)%nat →
  ∃ root t ts init st final s',
    buildTree rand freqMap s = Done (Some root) s'
    ∧ steps (this s') = init :: st ++ [final]
    ∧ highlightNodes init = [] ∧ highlightNodes final = []
    ∧ ts ≡ₚ leaf_tree <$> leaf_nodes rand (draws s) freqMap
    ∧ merge_trace (heap s') ts st t
    ∧ repr anywhere (heap s') (Some root) t.
Proof.
  intros Hlen.
  destruct (buildTree_spec rand freqMap s (nonempty_of_length _ Hlen))
    as (root & t & ts & qs & st & s' & Ebuild & _ & Hthis & Hperm & _ & Htr & Hroot).
  apply Forall2_cons_inv_l in Hroot as (? & ? & [Hroot _] & _ & [= <- _]).
  exists root, t, ts, (mkStep "Starting with the following nodes:" (Some qs) []), st,
    (mkStep "Huffman tree construction complete!" None []), s'.
  split_and!; try done.
  by rewrite Hthis.
Qed.

Lemma merge_loop_takes_two_lowest_witness :
  (2 ≤ length table_ABC)%nat
  ∧ ∃ root t ts init st final s',
      buildTree sample_ids table_ABC fresh_state = Done (Some root) s'
      ∧ steps (this s') = init :: st ++ [final]
      ∧ highlightNodes init = [] ∧ highlightNodes final = []
      ∧ ts ≡ₚ leaf_tree <$> leaf_nodes sample_ids (draws fresh_state) table_ABC
      ∧ merge_trace (heap s') ts st t
      ∧ repr anywhere (heap s') (Some root) t.
Proof.
  split; [simpl; lia|]. apply merge_loop_takes_two_lowest. simpl. lia.
Defined.

(** C2: on a table of [n >= 2] entries [buildTree] records [n + 1] steps:
    the initial step, [n - 1] merge steps, each highlighting two nodes, and
    the final step. *)
Theorem buildTree_step_count rand freqMap s :
  (2 ≤ length freqMap)%nat →
  ∃ root init merges final s',
    buildTree rand freqMap s = Done (Some root) s'
    ∧ steps (this s') = init :: merges ++ [final]
    ∧ length (steps (this s')) = (length freqMap + 1)%nat
    ∧ length merges = (length freqMap - 1)%nat
    ∧ description init = "Starting with the following nodes:"
    ∧ highlightNodes init = []
    ∧ Forall (λ x, length (highlightNodes x) = 2%nat) merges
    ∧ description final = "Huffman tree construction complete!"
    ∧ highlightNodes final = [].
Proof.
  intros Hlen.
  destruct (buildTree_spec rand freqMap s (nonempty_of_length _ Hlen))
    as (root & t & ts & qs & st & s' & Ebuild & _ & Hthis & Hperm & _ & Htr & _).
  pose proof (trace_length _ _ _ _ Htr) as Hl.
  rewrite (leaf_trees_length _ _ _ _ Hperm) in Hl.
  exists root, (mkStep "Starting with the following nodes:" (Some qs) []), st,
    (mkStep "Huffman tree construction complete!" None []), s'.
  split_and!; try done.
  - by rewrite Hthis.
  - rewrite Hthis. simpl. rewrite length_app. simpl. lia.
  - lia.
  - by eapply trace_highlights.
Qed.

Lemma buildTree_step_count_witness :
  (2 ≤ length table_ABC)%nat
  ∧ ∃ root init merges final s',
      buildTree sample_ids table_ABC fresh_state = Done (Some root) s'
      ∧ steps (this s') = init :: merges ++ [final]
      ∧ length (steps (this s')) = (length table_ABC + 1)%nat
      ∧ length merges = (length table_ABC - 1)%nat
      ∧ description init = "Starting with the following nodes:"
      ∧ highlightNodes init = []
      ∧ Forall (λ x, length (highlightNodes x) = 2%nat) merges
      ∧ description final = "Huffman tree construction complete!"
      ∧ highlightNodes final = [].
Proof.
  split; [simpl; lia|]. apply buildTree_step_count. simpl. lia.
Defined.










Lemma nextStep_times_cursor n e :
  (Z.of_nat n ≤ Z.of_nat (length (steps e)) - 1 - currentStep e) →
  nextStep_times n e = set_currentStep (currentStep e + Z.of_nat n) e.
Proof.
  induction n as [|n IH]; intros Hn.
  - destruct e. unfold nextStep_times, set_currentStep. simpl. f_equal. lia.
  - unfold nextStep_times in *. simpl. rewrite IH by lia.
    unfold nextStep. simpl. rewrite decide_True by lia.
    unfold set_currentStep. simpl. f_equal. lia.
Qed.

(** C8: with the cursor inside the log, [nextStep] moves it forward by one
    and returns true exactly when it is not at the last index, and otherwise
    returns false and leaves the engine as it is; [prevStep] moves it back by
    one and returns true exactly when it is not at 0, and otherwise returns
    false and leaves it at 0; either way the cursor stays inside the log.
    From cursor 0, [steps.length - 1] calls of [nextStep] all return true and
    reach the last index, where the next call returns false. *)
Theorem navigation_within_log e :
  0 ≤ currentStep e < Z.of_nat (length (steps e)) →
  (nextStep e =
     if decide (currentStep e = Z.of_nat (length (steps e)) - 1) then (false, e)
     else (true, set_currentStep (currentStep e + 1) e))
  ∧ (prevStep e =
       if decide (currentStep e = 0) then (false, e)
       else (true, set_currentStep (currentStep e - 1) e))
  ∧ 0 ≤ currentStep (nextStep e).2 < Z.of_nat (length (steps (nextStep e).2))
  ∧ 0 ≤ currentStep (prevStep e).2 < Z.of_nat (length (steps (prevStep e).2))
  ∧ (currentStep e = 0 →
     (∀ k, (k < length (steps e) - 1)%nat → (nextStep (nextStep_times k e)).1 = true)
     ∧ currentStep (nextStep_times (length (steps e) - 1) e)
         = Z.of_nat (length (steps e)) - 1
     ∧ nextStep (nextStep_times (length (steps e) - 1) e)
         = (false, nextStep_times (length (steps e) - 1) e)).
Proof.
  intros Hcur. split; [|split; [|split; [|split]]].
  - unfold nextStep. repeat case_decide; try done; lia.
  - unfold prevStep. repeat case_decide; try done; lia.
  - unfold nextStep, set_currentStep.
    destruct (decide (currentStep e < _)); simpl; lia.
  - unfold prevStep, set_currentStep.
    destruct (decide (currentStep e > 0)); simpl; lia.
  - intros Hzero. split_and!.
    + intros k Hk. rewrite nextStep_times_cursor by lia.
      unfold nextStep. simpl. rewrite decide_True by lia. done.
    + rewrite nextStep_times_cursor by lia. simpl. lia.
    + rewrite nextStep_times_cursor by lia.
      unfold nextStep. simpl. rewrite decide_False by lia. done.
Qed.

Lemma navigation_within_log_witness :
  let e := three_step_engine in
  (0 ≤ currentStep e < Z.of_nat (length (steps e)))
  ∧ (nextStep e =
       if decide (currentStep e = Z.of_nat (length (steps e)) - 1) then (false, e)
       else (true, set_currentStep (currentStep e + 1) e))
  ∧ (prevStep e =
       if decide (currentStep e = 0) then (false, e)
       else (true, set_currentStep (currentStep e - 1) e))
  ∧ 0 ≤ currentStep (nextStep e).2 < Z.of_nat (length (steps (nextStep e).2))
  ∧ 0 ≤ currentStep (prevStep e).2 < Z.of_nat (length (steps (prevStep e).2))
  ∧ (currentStep e = 0 →
     (∀ k, (k < length (steps e) - 1)%nat → (nextStep (nextStep_times k e)).1 = true)
     ∧ currentStep (nextStep_times (length (steps e) - 1) e)
         = Z.of_nat (length (steps e)) - 1
     ∧ nextStep (nextStep_times (length (steps e) - 1) e)
         = (false, nextStep_times (length (steps e) - 1) e)).
Proof.
  intros e.
  assert (0 ≤ currentStep e < Z.of_nat (length (steps e))) as H by (simpl; lia).
  split; [exact H|]. exact (navigation_within_log e H).
Defined.

Lemma leaf_trees_proper rand d (m : list (string * Z)) :
  Forall proper (leaf_tree <$> leaf_nodes rand d m).
Proof.
  revert d. induction m as [|[c f] m IH]; intros d; simpl; constructor; [|done].
  apply proper_leaf.
Qed.

Lemma leaf_symbols rand d (m : list (string * Z)) :
  concat (symbols <$> (leaf_tree <$> leaf_nodes rand d m)) = Some <$> m.*1.
Proof.
  revert d. induction m as [|[c f] m IH]; intros d; simpl; [done|]. by rewrite IH.
Qed.

(** [buildTree] followed by code derivation from the root it returns, on a
    table that is not empty: both calls return, [buildTree] leaves [codes]
    alone, and the derivation makes the bindings of the final tree, whose
    keys are the symbols of the table. *)
Lemma derive_codes_spec rand freqMap s :
  freqMap ≠ [] →
  ∃ root t s1 s2,
    buildTree rand freqMap s = Done (Some root) s1
    ∧ codes (this s1) = codes (this s)
    ∧ generateCodes (Some root) "" s1 = Done tt s2
    ∧ codes (this s2) = bind_codes (codes (this s)) (tree_codes t "")
    ∧ (tree_codes t "").*1 ≡ₚ Some <$> freqMap.*1.
Proof.
  intros Hne.
  destruct (buildTree_spec rand freqMap s Hne)
    as (root & t & ts & qs & st & s1 & Ebuild & _ & Hthis & Hperm & _ & Htr & Hroot).
  apply Forall2_cons_inv_l in Hroot as (? & ? & [Hroot Hh] & _ & [= <- _]).
  assert (Forall proper ts) as Hproper.
  { rewrite Hperm. apply leaf_trees_proper. }
  exists root, t, s1. eexists. split_and!.
  - exact Ebuild.
  - by rewrite Hthis.
  - eapply generateCodes_spec; [|exact Hroot|exact Hh]. by eapply trace_proper.
  - simpl. by rewrite Hthis.
  - rewrite tree_codes_keys, (trace_symbols _ _ _ _ Htr Hproper).
    rewrite <- (leaf_symbols rand (draws s)). by rewrite Hperm.
Qed.

(** C5: on a table of at least two distinct symbols, code derivation from
    the root of the completed tree gives every symbol of the table a code,
    and no symbol's code is a prefix of another symbol's code; keys that are
    not symbols of the table are left as they were, so on an engine whose
    [codes] was empty the whole code table is prefix-free. *)
Theorem codes_prefix_free rand freqMap s :
  (2 ≤ length freqMap)%nat → NoDup freqMap.*1 →
  ∃ root s1 s2,
    buildTree rand freqMap s = Done (Some root) s1
    ∧ generateCodes (Some root) "" s1 = Done tt s2
    ∧ (∀ a, a ∈ freqMap.*1 → is_Some (codes (this s2) !! Some a))
    ∧ (∀ a b ca cb, a ∈ freqMap.*1 → b ∈ freqMap.*1 → a ≠ b →
         codes (this s2) !! Some a = Some ca →
         codes (this s2) !! Some b = Some cb →
         String.prefix ca cb = false)
    ∧ (∀ k, k ∉ Some <$> freqMap.*1 → codes (this s2) !! k = codes (this s) !! k)
    ∧ (codes (this s) = ∅ →
       ∀ k1 k2 c1 c2, k1 ≠ k2 →
         codes (this s2) !! k1 = Some c1 → codes (this s2) !! k2 = Some c2 →
         String.prefix c1 c2 = false).
Proof.
  intros Hlen Hnd.
  enough (∃ root s1 s2,
    buildTree rand freqMap s = Done (Some root) s1
    ∧ generateCodes (Some root) "" s1 = Done tt s2
    ∧ (∀ a, a ∈ freqMap.*1 → is_Some (codes (this s2) !! Some a))
    ∧ (∀ a b ca cb, a ∈ freqMap.*1 → b ∈ freqMap.*1 → a ≠ b →
         codes (this s2) !! Some a = Some ca →
         codes (this s2) !! Some b = Some cb →
         String.prefix ca cb = false)
    ∧ (∀ k, k ∉ Some <$> freqMap.*1 → codes (this s2) !! k = codes (this s) !! k))
    as (root & s1 & s2 & E1 & E2 & Hall & Hfree & Hframe).
  { exists root, s1, s2. split_and!; [done..|].
    intros Hempty k1 k2 c1 c2 Hne H1 H2.
    assert (∀ k c, codes (this s2) !! k = Some c → ∃ a, k = Some a ∧ a ∈ freqMap.*1) as Hsym.
    { intros k c Hk. destruct (decide (k ∈ Some <$> freqMap.*1)) as [Hin|Hout].
      - apply list_elem_of_fmap in Hin as (a & -> & Ha). eauto.
      - rewrite (Hframe k Hout), Hempty, lookup_empty in Hk. done. }
    destruct (Hsym _ _ H1) as (a & -> & Ha). destruct (Hsym _ _ H2) as (b & -> & Hb).
    eapply (Hfree a b); [done..|congruence|done|done]. }
  destruct (derive_codes_spec rand freqMap s (nonempty_of_length _ Hlen))
    as (root & t & s1 & s2 & Ebuild & _ & Egen & Hcodes & Hkeys).
  assert (NoDup (tree_codes t "").*1) as Hnd'.
  { rewrite Hkeys. apply NoDup_fmap; [|done]. by intros ? ? [=]. }
  assert (∀ a, a ∈ freqMap.*1 →
            ∃ c, (Some a, c) ∈ tree_codes t "" ∧ codes (this s2) !! Some a = Some c) as Hin.
  { intros a Ha.
    assert (Some a ∈ (tree_codes t "").*1) as Hk
      by (rewrite Hkeys; by apply list_elem_of_fmap_2).
    apply list_elem_of_fmap in Hk as ([k c] & [= <-] & Hkc).
    exists c. split; [done|]. rewrite Hcodes. by apply bind_codes_lookup. }
  exists root, s1, s2. split_and!; [done..| | |].
  - intros a Ha. destruct (Hin a Ha) as (c & _ & ->). by eexists.
  - intros a b ca cb Ha Hb Hab Hca Hcb.
    destruct (Hin a Ha) as (ca' & Hina & Hca'). destruct (Hin b Hb) as (cb' & Hinb & Hcb').
    assert (ca' = ca) as -> by congruence. assert (cb' = cb) as -> by congruence.
    apply list_elem_of_lookup in Hina as [n Hn]. apply list_elem_of_lookup in Hinb as [m Hm].
    eapply tree_codes_prefix_free; [exact Hn|exact Hm|]. intros ->. congruence.
  - intros k Hk. rewrite Hcodes. apply bind_codes_notin. by rewrite Hkeys.
Qed.

Lemma codes_prefix_free_witness :
  (2 ≤ length table_ABC)%nat ∧ NoDup table_ABC.*1
  ∧ ∃ root s1 s2,
      buildTree sample_ids table_ABC fresh_state = Done (Some root) s1
      ∧ generateCodes (Some root) "" s1 = Done tt s2
      ∧ (∀ a, a ∈ table_ABC.*1 → is_Some (codes (this s2) !! Some a))
      ∧ (∀ a b ca cb, a ∈ table_ABC.*1 → b ∈ table_ABC.*1 → a ≠ b →
           codes (this s2) !! Some a = Some ca →
           codes (this s2) !! Some b = Some cb →
           String.prefix ca cb = false)
      ∧ (∀ k, k ∉ Some <$> table_ABC.*1 →
           codes (this s2) !! k = codes (this fresh_state) !! k)
      ∧ (codes (this fresh_state) = ∅ →
         ∀ k1 k2 c1 c2, k1 ≠ k2 →
           codes (this s2) !! k1 = Some c1 → codes (this s2) !! k2 = Some c2 →
           String.prefix c1 c2 = false).
Proof.
  assert (NoDup table_ABC.*1) as Hnd
    by (apply (bool_decide_unpack (NoDup table_ABC.*1)); by vm_compute).
  split; [simpl; lia|]. split; [exact Hnd|].
  apply codes_prefix_free; [simpl; lia|exact Hnd].
Defined.

(** C10: code derivation adds to [codes] without clearing it, and
    [buildTree] leaves [codes] alone: a binding made earlier for a key that
    is not a symbol of the new table is still there after the new tree is
    built and its codes are derived, and no earlier key is lost.  [nextStep]
    and [prevStep] keep [codes]; [reset] empties it. *)
Theorem codes_accumulate rand freqMap s k c :
  freqMap ≠ [] →
  codes (this s) !! k = Some c →
  k ∉ Some <$> freqMap.*1 →
  ∃ root s1 s2,
    buildTree rand freqMap s = Done (Some root) s1
    ∧ codes (this s1) = codes (this s)
    ∧ generateCodes (Some root) "" s1 = Done tt s2
    ∧ codes (this s2) !! k = Some c
    ∧ (∀ k', is_Some (codes (this s) !! k') → is_Some (codes (this s2) !! k'))
    ∧ codes (nextStep (this s2)).2 = codes (this s2)
    ∧ codes (prevStep (this s2)).2 = codes (this s2)
    ∧ codes (reset (this s2)) = ∅.
Proof.
  intros Hne Hk Hnotin.
  destruct (derive_codes_spec rand freqMap s Hne)
    as (root & t & s1 & s2 & Ebuild & Hkeep & Egen & Hcodes & Hkeys).
  exists root, s1, s2. split_and!; [done..| | | | |].
  - rewrite Hcodes, bind_codes_notin; [done|]. by rewrite Hkeys.
  - intros k' Hk'. rewrite Hcodes. by apply bind_codes_is_Some.
  - unfold nextStep. by case_decide.
  - unfold prevStep. by case_decide.
  - done.
Qed.

Lemma codes_accumulate_witness :
  table_CD ≠ []
  ∧ codes (this (build_and_derive sample_ids table_AB fresh_state)) !! Some "A" = Some "0"
  ∧ (Some "A" ∉ Some <$> table_CD.*1)
  ∧ ∃ root s1 s2,
      buildTree sample_ids table_CD (build_and_derive sample_ids table_AB fresh_state)
        = Done (Some root) s1
      ∧ codes (this s1) = codes (this (build_and_derive sample_ids table_AB fresh_state))
      ∧ generateCodes (Some root) "" s1 = Done tt s2
      ∧ codes (this s2) !! Some "A" = Some "0"
      ∧ (∀ k', is_Some (codes (this (build_and_derive sample_ids table_AB fresh_state)) !! k')
               → is_Some (codes (this s2) !! k'))
      ∧ codes (nextStep (this s2)).2 = codes (this s2)
      ∧ codes (prevStep (this s2)).2 = codes (this s2)
      ∧ codes (reset (this s2)) = ∅.
Proof.
  assert (table_CD ≠ []) as H1 by done.
  assert (codes (this (build_and_derive sample_ids table_AB fresh_state)) !! Some "A"
          = Some "0") as H2 by (by vm_compute).
  assert (Some "A" ∉ Some <$> table_CD.*1) as H3.
  { apply (bool_decide_unpack (Some "A" ∉ Some <$> table_CD.*1)). by vm_compute. }
  split_and!; [exact H1|exact H2|exact H3|].
  exact (codes_accumulate sample_ids table_CD _ (Some "A") "0" H1 H2 H3).
Defined.

(** C9, the run on the table A:5, B:9, C:12 with pairwise distinct random
    identifiers.  The first merge step shows the merge of A and B under the
    identifier ["n6"], the one of the node built for the step.  The node
    kept in the forest is a second object with the identifier ["n11"]: that
    is the identifier the second step highlights and shows for the same
    merge, and the one in the tree [buildTree] returns. *)
Theorem merged_node_id_differs_across_steps :
  ∃ root s' init step1 step2 final q1 q1' q2,
    buildTree sample_ids table_ABC fresh_state = Done (Some root) s'
    ∧ steps (this s') = [init; step1; step2; final]
    ∧ nodes step1 = Some [q1; q1']
    ∧ repr anywhere (heap s') q1 (merged "n6" leaf_A leaf_B)
    ∧ highlightNodes step2 = ["n2"; "n11"]
    ∧ nodes step2 = Some [q2]
    ∧ repr anywhere (heap s') q2 (merged "n12" leaf_C (merged "n11" leaf_A leaf_B))
    ∧ repr anywhere (heap s') (Some root) (merged "n18" leaf_C (merged "n11" leaf_A leaf_B)).
Proof.
  destruct (buildTree sample_ids table_ABC fresh_state) as [r s'|s'|] eqn:E;
    vm_compute in E; [injection E as <- <-|discriminate..].
  eexists _, _, _, _, _, _, _, _, _. split_and!; [reflexivity..| | | | |].
  - repeat (first [done | eexists _, _; split_and!]).
  - reflexivity.
  - reflexivity.
  - repeat (first [done | eexists _, _; split_and!]).
  - repeat (first [done | eexists _, _; split_and!]).
Qed.

(** * Further properties *)

(** ** [buildFrequencyMap] *)

Lemma Map_get_set m k v k' :
  Map_get (Map_set m k v) k' = if decide (k = k') then Some v else Map_get m k'.
Proof.
  induction m as [|[k0 v0] m IH]; simpl.
  - repeat case_decide; congruence.
  - destruct (decide (k0 = k)) as [->|Hne]; simpl.
    + repeat case_decide; congruence.
    + rewrite IH. repeat case_decide; congruence.
Qed.

Lemma Map_get_None m k : Map_get m k = None ↔ k ∉ m.*1.
Proof.
  induction m as [|[k0 v0] m IH]; simpl.
  - split; [intros _; apply not_elem_of_nil|done].
  - rewrite not_elem_of_cons. destruct (decide (k0 = k)) as [->|Hne].
    + split; [done|]. by intros [? _].
    + rewrite IH. split; [|by intros [_ ?]]. intros ?. split; [congruence|done].
Qed.

Lemma Map_set_keys m k v :
  (Map_set m k v).*1 = if decide (k ∈ m.*1) then m.*1 else m.*1 ++ [k].
Proof.
  induction m as [|[k0 v0] m IH].
  - destruct (decide (k ∈ ([] : list (string * Z)).*1)) as [Hin|_]; [|done].
    by apply elem_of_nil in Hin.
  - cbn [Map_set]. destruct (decide (k0 = k)) as [->|Hne].
    + destruct (decide (k ∈ ((k, v0) :: m).*1)) as [_|Hout]; [done|].
      exfalso. apply Hout. simpl. by left.
    + rewrite !fmap_cons, IH. cbn [fst].
      destruct (decide (k ∈ m.*1)) as [Hin|Hout].
      * destruct (decide (k ∈ k0 :: m.*1)) as [_|Hout']; [done|].
        exfalso. apply Hout'. by right.
      * destruct (decide (k ∈ k0 :: m.*1)) as [Hin'|_]; [|done].
        apply elem_of_cons in Hin' as [->|?]; done.
Qed.

Lemma Map_set_NoDup m k v : NoDup m.*1 → NoDup (Map_set m k v).*1.
Proof.
  intros Hnd. rewrite Map_set_keys. case_decide; [done|].
  apply NoDup_app. split_and!; [done| |apply NoDup_singleton].
  intros x Hx ->%list_elem_of_singleton. done.
Qed.

Lemma Map_set_sum m k v :
  Zsum (Map_set m k v).*2 = Zsum m.*2 - from_option id 0 (Map_get m k) + v.
Proof.
  induction m as [|[k0 v0] m IH]; [simpl; lia|].
  cbn [Map_set Map_get]. destruct (decide (k0 = k)) as [->|Hne].
  - rewrite !fmap_cons. unfold Zsum. simpl. lia.
  - rewrite !fmap_cons. unfold Zsum in *. simpl. rewrite IH. lia.
Qed.

Lemma or_zero_id x : or_zero x = from_option id 0 x.
Proof. destruct x as [v|]; simpl; [|done]. by case_decide. Qed.

Lemma occurrences_cons c x l :
  occurrences c (x :: l) = (if decide (x = c) then S (occurrences c l) else occurrences c l).
Proof. unfold occurrences. rewrite filter_cons. by case_decide. Qed.

(** The loop of [buildFrequencyMap] from any map [m]: counts add up, keys
    stay distinct, and the keys are those of [m] and the characters read. *)
Lemma count_loop l : ∀ m,
  NoDup m.*1 →
  let m' := foldl (λ freqMap char, Map_set freqMap char (or_zero (Map_get freqMap char) + 1))
                  m l in
  NoDup m'.*1
  ∧ (∀ c, or_zero (Map_get m' c) = or_zero (Map_get m c) + Z.of_nat (occurrences c l))
  ∧ (∀ c, c ∈ m'.*1 ↔ c ∈ m.*1 ∨ c ∈ l)
  ∧ Zsum m'.*2 = Zsum m.*2 + Z.of_nat (length l).
Proof.
  induction l as [|x l IH]; intros m Hnd; simpl.
  - split_and!; [done|intros; unfold occurrences; simpl; lia| |lia].
    intros c. rewrite elem_of_nil. tauto.
  - destruct (IH (Map_set m x (or_zero (Map_get m x) + 1)) (Map_set_NoDup _ _ _ Hnd))
      as (Hnd' & Hcount & Hkeys & Hsum).
    split_and!; [done| | |].
    + intros c. rewrite Hcount, Map_get_set, occurrences_cons.
      destruct (decide (x = c)) as [->|Hne]; [|lia].
      simpl. destruct (decide (or_zero (Map_get m c) + 1 = 0)); lia.
    + intros c. rewrite Hkeys, Map_set_keys, elem_of_cons.
      destruct (decide (x ∈ m.*1)).
      * split; [tauto|]. intros [?|[->|?]]; auto.
      * rewrite elem_of_app, list_elem_of_singleton. tauto.
    + rewrite Hsum, Map_set_sum, or_zero_id. lia.
Qed.


(** X1: [buildFrequencyMap] counts: its keys are distinct and are exactly
    the characters of the text, and each key is bound to the number of times
    the character occurs, which is at least 1; a character that does not
    occur has no entry. *)
Theorem buildFrequencyMap_counts text c :
  NoDup (buildFrequencyMap text).*1
  ∧ (c ∈ (buildFrequencyMap text).*1 ↔ c ∈ chars text)
  ∧ Map_get (buildFrequencyMap text) c =
      (if decide (c ∈ chars text) then Some (Z.of_nat (occurrences c (chars text))) else None)
  ∧ (c ∈ chars text → (1 ≤ occurrences c (chars text))%nat).
Proof.
  destruct (count_loop (chars text) [] (NoDup_nil_2)) as (Hnd & Hcount & Hkeys & _).
  fold (buildFrequencyMap text) in *.
  assert (c ∈ (buildFrequencyMap text).*1 ↔ c ∈ chars text) as Hk.
  { rewrite Hkeys. simpl. rewrite elem_of_nil. tauto. }
  assert (c ∈ chars text → (1 ≤ occurrences c (chars text))%nat) as Hpos.
  { intros Hin. unfold occurrences.
    destruct (filter (λ x, x = c) (chars text)) as [|y l] eqn:E; [|simpl; lia].
    assert (c ∈ filter (λ x, x = c) (chars text)) as Hc by (by apply list_elem_of_filter).
    rewrite E in Hc. by apply elem_of_nil in Hc. }
  split_and!; [done..| |done].
  specialize (Hcount c). simpl in Hcount.
  destruct (decide (c ∈ chars text)) as [Hin|Hout].
  - destruct (Map_get (buildFrequencyMap text) c) as [v|] eqn:E.
    + simpl in Hcount. specialize (Hpos Hin). destruct (decide (v = 0)); [lia|]. f_equal. lia.
    + apply Map_get_None in E. by apply Hk in Hin.
  - apply Map_get_None. by rewrite Hk.
Qed.


(** ** From a text to its codes *)

(** [buildTree] then [generateCodes] on a table that is not empty, with
    the tree the root denotes. *)
Lemma derive_codes_full rand freqMap s :
  freqMap ≠ [] →
  ∃ root t s1 s2,
    buildTree rand freqMap s = Done (Some root) s1
    ∧ repr anywhere (heap s1) (Some root) t
    ∧ (height t ≤ length (heap s1))%nat
    ∧ proper t
    ∧ symbols t ≡ₚ Some <$> freqMap.*1
    ∧ codes (this s1) = codes (this s)
    ∧ generateCodes (Some root) "" s1 = Done tt s2
    ∧ s2 = mkState (heap s1) (draws s1)
             (set_codes (bind_codes (codes (this s1)) (tree_codes t "")) (this s1)).
Proof.
  intros Hne.
  destruct (buildTree_spec rand freqMap s Hne)
    as (root & t & ts & qs & st & s1 & Ebuild & _ & Hthis & Hperm & _ & Htr & Hroot).
  apply Forall2_cons_inv_l in Hroot as (? & ? & [Hroot Hh] & _ & [= <- _]).
  assert (Forall proper ts) as Hproper by (rewrite Hperm; apply leaf_trees_proper).
  assert (proper t) as Ht by (by eapply trace_proper).
  exists root, t, s1. eexists. split_and!; [done..| | | |reflexivity].
  - rewrite (trace_symbols _ _ _ _ Htr Hproper).
    rewrite <- (leaf_symbols rand (draws s)). by rewrite Hperm.
  - by rewrite Hthis.
  - by apply generateCodes_spec.
Qed.

(** On a table with distinct keys every key gets a code, and the codes of
    two different keys are not prefixes of one another. *)
Lemma table_codes rand freqMap s :
  freqMap ≠ [] → NoDup freqMap.*1 →
  ∃ root t s1 s2,
    buildTree rand freqMap s = Done (Some root) s1
    ∧ generateCodes (Some root) "" s1 = Done tt s2
    ∧ proper t
    ∧ length (symbols t) = length freqMap
    ∧ NoDup (tree_codes t "").*1
    ∧ codes (this s2) = bind_codes (codes (this s)) (tree_codes t "")
    ∧ (∀ a, a ∈ freqMap.*1 →
         ∃ c, (Some a, c) ∈ tree_codes t "" ∧ codes (this s2) !! Some a = Some c)
    ∧ (∀ a b ca cb, a ∈ freqMap.*1 → b ∈ freqMap.*1 → a ≠ b →
         codes (this s2) !! Some a = Some ca →
         codes (this s2) !! Some b = Some cb →
         String.prefix ca cb = false).
Proof.
  intros Hne Hnd.
  destruct (derive_codes_full rand freqMap s Hne)
    as (root & t & s1 & s2 & Ebuild & _ & _ & Hproper & Hsym & Hkeep & Egen & Es2).
  assert (codes (this s2) = bind_codes (codes (this s)) (tree_codes t "")) as Hcodes.
  { rewrite Es2. simpl. by rewrite Hkeep. }
  assert (NoDup (tree_codes t "").*1) as Hnd'.
  { rewrite tree_codes_keys, Hsym. apply NoDup_fmap; [|done]. by intros ? ? [=]. }
  assert (∀ a, a ∈ freqMap.*1 →
            ∃ c, (Some a, c) ∈ tree_codes t "" ∧ codes (this s2) !! Some a = Some c) as Hin.
  { intros a Ha.
    assert (Some a ∈ (tree_codes t "").*1) as Hk
      by (rewrite tree_codes_keys, Hsym; by apply list_elem_of_fmap_2).
    apply list_elem_of_fmap in Hk as ([k c] & [= <-] & Hkc).
    exists c. split; [done|]. rewrite Hcodes. by apply bind_codes_lookup. }
  exists root, t, s1, s2. split_and!; try done.
  - rewrite Hsym. by rewrite !length_fmap.
  - intros a b ca cb Ha Hb Hab Hca Hcb.
    destruct (Hin a Ha) as (ca' & Hina & Hca'). destruct (Hin b Hb) as (cb' & Hinb & Hcb').
    assert (ca' = ca) as -> by congruence. assert (cb' = cb) as -> by congruence.
    apply list_elem_of_lookup in Hina as [n Hn]. apply list_elem_of_lookup in Hinb as [m Hm].
    eapply tree_codes_prefix_free; [exact Hn|exact Hm|]. intros ->. congruence.
Qed.




(** ** The returned tree *)











(** ** The shape of the codes *)

Lemma length_append (a b : string) :
  String.length (a +:+ b) = (String.length a + String.length b)%nat.
Proof. induction a as [|x a IH]; [done|]. rewrite append_cons. simpl. by rewrite IH. Qed.

Lemma is_binary_append (a b : string) :
  is_binary (a +:+ b) = is_binary a && is_binary b.
Proof.
  induction a as [|x a IH]; [done|]. rewrite append_cons. simpl. rewrite IH.
  by rewrite andb_assoc.
Qed.

Lemma proper_height_symbols t :
  proper t → (1 ≤ height t ≤ length (symbols t))%nat.
Proof.
  induction 1 as [c f i|l c f i r Hl IHl Hr IHr].
  - simpl. lia.
  - rewrite symbols_node by done. rewrite length_app. simpl. lia.
Qed.

(** Below a proper tree every code extends the path by a word over ['0']
    and ['1'] that is shorter than the tree is high, and is not empty unless
    the tree is a single leaf. *)
Lemma tree_codes_shape t :
  proper t → ∀ path k c,
  (k, c) ∈ tree_codes t path →
  ∃ w, c = path +:+ w ∧ is_binary w = true
       ∧ (String.length w < height t)%nat
       ∧ ((2 ≤ length (symbols t))%nat → (1 ≤ String.length w)%nat).
Proof.
  induction 1 as [c0 f i|l c0 f i r Hl IHl Hr IHr]; intros path k c Hin.
  - simpl in Hin. apply list_elem_of_singleton in Hin as [= -> ->].
    exists "". rewrite append_nil_r. simpl. split_and!; [done..|lia|lia].
  - rewrite tree_codes_node in Hin by done. apply elem_of_app in Hin as [Hin|Hin].
    + apply IHl in Hin as (w & -> & Hb & Hlen & _).
      exists ("0" +:+ w). rewrite append_assoc. split_and!; [done|done| |].
      * rewrite length_append. simpl in *. lia.
      * intros _. rewrite length_append. simpl. lia.
    + apply IHr in Hin as (w & -> & Hb & Hlen & _).
      exists ("1" +:+ w). rewrite append_assoc. split_and!; [done|done| |].
      * rewrite length_append. simpl in *. lia.
      * intros _. rewrite length_append. simpl. lia.
Qed.

(** X5: on a table of [n >= 2] distinct symbols every derived code is a
    string of ['0'] and ['1'] of length between 1 and [n - 1]. *)
Theorem codes_are_short_binary_words rand freqMap s :
  (2 ≤ length freqMap)%nat → NoDup freqMap.*1 →
  ∃ root s1 s2,
    buildTree rand freqMap s = Done (Some root) s1
    ∧ generateCodes (Some root) "" s1 = Done tt s2
    ∧ ∀ a code, a ∈ freqMap.*1 → codes (this s2) !! Some a = Some code →
        is_binary code = true
        ∧ (1 ≤ String.length code ≤ length freqMap - 1)%nat.
Proof.
  intros Hlen Hnd.
  destruct (table_codes rand freqMap s (nonempty_of_length _ Hlen) Hnd)
    as (root & t & s1 & s2 & Ebuild & Egen & Hproper & Hsym & _ & _ & Hall & _).
  exists root, s1, s2. split_and!; [done..|].
  intros a code Ha Hcode.
  destruct (Hall a Ha) as (c & Hin & Hc). assert (c = code) as -> by congruence.
  destruct (tree_codes_shape t Hproper "" _ _ Hin) as (w & -> & Hbin & Hshort & Hpos).
  pose proof (proper_height_symbols t Hproper) as Hh.
  change ("" +:+ w) with w. split; [done|]. split; [apply Hpos|]; lia.
Qed.

Lemma codes_are_short_binary_words_witness :
  (2 ≤ length table_ABC)%nat ∧ NoDup table_ABC.*1
  ∧ ∃ root s1 s2,
      buildTree sample_ids table_ABC fresh_state = Done (Some root) s1
      ∧ generateCodes (Some root) "" s1 = Done tt s2
      ∧ ∀ a code, a ∈ table_ABC.*1 → codes (this s2) !! Some a = Some code →
          is_binary code = true
          ∧ (1 ≤ String.length code ≤ length table_ABC - 1)%nat.
Proof.
  assert (NoDup table_ABC.*1) as Hnd
    by (apply (bool_decide_unpack (NoDup table_ABC.*1)); by vm_compute).
  split; [simpl; lia|]. split; [exact Hnd|].
  apply codes_are_short_binary_words; [simpl; lia|exact Hnd].
Defined.

(** ** Deriving the codes again *)

Lemma bind_codes_idem l cs :
  NoDup l.*1 → bind_codes (bind_codes cs l) l = bind_codes cs l.
Proof.
  intros Hnd. apply map_eq. intros k.
  destruct (decide (k ∈ l.*1)) as [Hin|Hout].
  - apply list_elem_of_fmap in Hin as ([k' v] & -> & Hkv). simpl.
    by rewrite !(bind_codes_lookup l _ k' v).
  - by rewrite !bind_codes_notin.
Qed.

(** X6: deriving the codes a second time from the same root changes
    nothing: the second call returns and leaves the very state the first
    call left. *)
Theorem generateCodes_again rand freqMap s :
  freqMap ≠ [] → NoDup freqMap.*1 →
  ∃ root s1 s2,
    buildTree rand freqMap s = Done (Some root) s1
    ∧ generateCodes (Some root) "" s1 = Done tt s2
    ∧ generateCodes (Some root) "" s2 = Done tt s2.
Proof.
  intros Hne Hnd.
  destruct (derive_codes_full rand freqMap s Hne)
    as (root & t & s1 & s2 & Ebuild & Hroot & Hh & Hproper & Hsym & _ & Egen & Es2).
  exists root, s1, s2. split_and!; [done..|].
  rewrite (generateCodes_spec t root "" s2); [|done|by rewrite Es2|by rewrite Es2].
  rewrite Es2 at 4. rewrite Es2. simpl. unfold set_codes. simpl.
  rewrite bind_codes_idem; [done|].
  rewrite tree_codes_keys, Hsym. apply NoDup_fmap; [|done]. by intros ? ? [=].
Qed.

Lemma generateCodes_again_witness :
  table_ABC ≠ [] ∧ NoDup table_ABC.*1
  ∧ ∃ root s1 s2,
      buildTree sample_ids table_ABC fresh_state = Done (Some root) s1
      ∧ generateCodes (Some root) "" s1 = Done tt s2
      ∧ generateCodes (Some root) "" s2 = Done tt s2.
Proof.
  assert (NoDup table_ABC.*1) as Hnd
    by (apply (bool_decide_unpack (NoDup table_ABC.*1)); by vm_compute).
  split; [done|]. split; [exact Hnd|]. by apply generateCodes_again.
Defined.

(** ** What a merge step shows *)




(** ** What the first step shows *)

Lemma insert_tree_perm x l : insert_tree x l ≡ₚ x :: l.
Proof.
  induction l as [|y l IH]; simpl; [done|].
  destruct (decide (root_freq x ≤ root_freq y)); [done|]. rewrite IH. apply Permutation_swap.
Qed.

Lemma sort_trees_perm l : sort_trees l ≡ₚ l.
Proof.
  induction l as [|x l IH]; simpl; [done|]. by rewrite insert_tree_perm, IH.
Qed.

Lemma insert_tree_sorted x l :
  StronglySorted (λ a b, root_freq a ≤ root_freq b) l →
  StronglySorted (λ a b, root_freq a ≤ root_freq b) (insert_tree x l).
Proof.
  induction 1 as [|y l Hs IH Hy]; simpl.
  - repeat constructor.
  - destruct (decide (root_freq x ≤ root_freq y)) as [Hxy|Hxy].
    + constructor; [by constructor|]. constructor; [done|].
      eapply Forall_impl; [exact Hy|]. intros; simpl in *; lia.
    + constructor; [done|]. rewrite insert_tree_perm.
      constructor; [lia|done].
Qed.

Lemma sort_trees_sorted l :
  StronglySorted (λ a b, root_freq a ≤ root_freq b) (sort_trees l).
Proof.
  induction l as [|x l IH]; simpl; [constructor|]. by apply insert_tree_sorted.
Qed.

Lemma sort_trees_stable l f :
  filter (λ t, root_freq t = f) (sort_trees l) = filter (λ t, root_freq t = f) l.
Proof.
  induction l as [|x l IH]; simpl; [done|].
  rewrite filter_cons, <- IH. clear IH.
  induction (sort_trees l) as [|y l' IH]; simpl.
  - by rewrite filter_cons.
  - destruct (decide (root_freq x ≤ root_freq y)) as [Hxy|Hxy].
    + by rewrite (filter_cons _ x).
    + rewrite !(filter_cons _ y), IH.
      destruct (decide (root_freq x = f)) as [Hk|Hk]; [|done].
      destruct (decide (root_freq y = f)); [lia|done].
Qed.

(** Sorting the array of roots sorts the trees they denote. *)
Lemma sort_forest h ns ts :
  forest h ns ts → forest h (sort_by_freq h ns) (sort_trees ts).
Proof.
  induction 1 as [|x tx l tl [Hx Hhx] Hl IH]; simpl; [constructor|].
  fold (forest h l tl) in Hl. fold (forest h (sort_by_freq h l) (sort_trees tl)) in IH.
  revert IH. generalize (sort_by_freq h l) (sort_trees tl). clear Hl l tl.
  intros l tl. induction 1 as [|y ty l tl [Hy Hhy] Hl IH]; simpl.
  - by repeat constructor.
  - rewrite (repr_freq_at _ _ _ _ Hx), (repr_freq_at _ _ _ _ Hy).
    destruct (decide (root_freq tx ≤ root_freq ty)).
    + constructor; [done|]. by constructor.
    + by constructor.
Qed.

(** [buildTree] on a table that is not empty, with the order of the leaves
    in the first step. *)
Lemma buildTree_spec_sorted rand freqMap s :
  freqMap ≠ [] →
  ∃ root t qs st s',
    buildTree rand freqMap s = Done (Some root) s'
    ∧ this s' = set_steps
        (mkStep "Starting with the following nodes:" (Some qs) []
           :: st ++ [mkStep "Huffman tree construction complete!" None []])
        (set_currentStep 0 (this s))
    ∧ Forall2 (repr anywhere (heap s')) qs
        (sort_trees (leaf_tree <$> leaf_nodes rand (draws s) freqMap))
    ∧ merge_trace (heap s')
        (sort_trees (leaf_tree <$> leaf_nodes rand (draws s) freqMap)) st t.
Proof.
  intros Hne. destruct s as [h d e].
  set (s1 := mkState (h ++ leaf_nodes rand d freqMap) (d + length freqMap)
               (set_currentStep 0 (set_steps [] e))).
  pose proof (sort_forest _ _ _ (forest_leaves rand freqMap h d)) as Hfs.
  set (ts := sort_trees (leaf_tree <$> leaf_nodes rand d freqMap)) in *.
  set (ns := sort_by_freq (h ++ leaf_nodes rand d freqMap) (seq (length h) (length freqMap))) in *.
  destruct (addStep_spec rand "Starting with the following nodes:" ns ts [] s1 Hfs)
    as (qs & h2 & Eadd & Hqs).
  match type of Eadd with _ = Done tt ?s => set (s2 := s) in * end.
  assert (heap s1 `prefix_of` heap s2) as Hpre12 by (by apply prefix_app_r).
  destruct (merge_loop_spec rand (length ns) ns ts s2)
    as (root & t & st & s3 & Eloop & Hpre & Hthis & Hroot & Htr).
  { by eapply forest_prefix. }
  { unfold ns. rewrite sort_by_freq_length, length_seq.
    destruct freqMap; [done|simpl; lia]. }
  exists root, t, qs, st.
  eexists (mkState (heap s3) (draws s3) _). split_and!.
  - unfold buildTree.
    erewrite bind_eq by reflexivity. erewrite bind_eq by reflexivity.
    erewrite bind_eq by apply new_leaves_spec.
    erewrite bind_eq by reflexivity. simpl. fold ns.
    erewrite bind_eq by exact Eadd.
    erewrite bind_eq by exact Eloop.
    erewrite bind_eq by apply addStep_null. reflexivity.
  - rewrite Hthis. unfold s2. simpl. unfold set_steps, set_currentStep. simpl.
    reflexivity.
  - simpl. eapply Forall2_impl; [exact Hqs|]. intros q x Hq.
    eapply repr_prefix; [exact Hpre|]. eapply repr_mono; [|exact Hq]. done.
  - done.
Qed.

(** X8: on a table that is not empty, the first step of the log shows a
    copy of every leaf and nothing else, in ascending order of frequency,
    leaves of equal frequency in the order of the table's entries. *)
Theorem first_step_shows_sorted_leaves rand freqMap s :
  freqMap ≠ [] →
  ∃ root s' init qs ts,
    buildTree rand freqMap s = Done (Some root) s'
    ∧ head (steps (this s')) = Some init
    ∧ description init = "Starting with the following nodes:"
    ∧ highlightNodes init = []
    ∧ nodes init = Some qs
    ∧ Forall2 (repr anywhere (heap s')) qs ts
    ∧ ts ≡ₚ leaf_tree <$> leaf_nodes rand (draws s) freqMap
    ∧ StronglySorted (λ a b, root_freq a ≤ root_freq b) ts
    ∧ ∀ f, filter (λ t, root_freq t = f) ts
           = filter (λ t, root_freq t = f) (leaf_tree <$> leaf_nodes rand (draws s) freqMap).
Proof.
  intros Hne.
  destruct (buildTree_spec_sorted rand freqMap s Hne)
    as (root & t & qs & st & s' & Ebuild & Hthis & Hqs & _).
  exists root, s', (mkStep "Starting with the following nodes:" (Some qs) []), qs,
    (sort_trees (leaf_tree <$> leaf_nodes rand (draws s) freqMap)).
  split_and!; try done.
  - by rewrite Hthis.
  - apply sort_trees_perm.
  - apply sort_trees_sorted.
  - intros f. apply sort_trees_stable.
Qed.

Lemma first_step_shows_sorted_leaves_witness :
  table_ABC ≠ []
  ∧ ∃ root s' init qs ts,
      buildTree sample_ids table_ABC fresh_state = Done (Some root) s'
      ∧ head (steps (this s')) = Some init
      ∧ description init = "Starting with the following nodes:"
      ∧ highlightNodes init = []
      ∧ nodes init = Some qs
      ∧ Forall2 (repr anywhere (heap s')) qs ts
      ∧ ts ≡ₚ leaf_tree <$> leaf_nodes sample_ids (draws fresh_state) table_ABC
      ∧ StronglySorted (λ a b, root_freq a ≤ root_freq b) ts
      ∧ ∀ f, filter (λ t, root_freq t = f) ts
             = filter (λ t, root_freq t = f)
                      (leaf_tree <$> leaf_nodes sample_ids (draws fresh_state) table_ABC).
Proof.
  split; [done|]. by apply first_step_shows_sorted_leaves.
Defined.

(** ** Navigation *)

(** X9: with the cursor inside the log, a [nextStep] that moved is undone
    by [prevStep], and a [prevStep] that moved is undone by [nextStep]: each
    returns true and gives back the engine as it was. *)
Theorem nextStep_prevStep_inverse e :
  0 ≤ currentStep e < Z.of_nat (length (steps e)) →
  ((nextStep e).1 = true → prevStep (nextStep e).2 = (true, e))
  ∧ ((prevStep e).1 = true → nextStep (prevStep e).2 = (true, e)).
Proof.
  intros Hcur. destruct e as [cs st c sp pl tm]. simpl in Hcur. split.
  - unfold nextStep. simpl. destruct (decide (c < Z.of_nat (length st) - 1)); [|done].
    intros _. unfold prevStep, set_currentStep. simpl.
    rewrite decide_True by lia. do 2 f_equal. lia.
  - unfold prevStep. simpl. destruct (decide (c > 0)); [|done].
    intros _. unfold nextStep, set_currentStep. simpl.
    rewrite decide_True by lia. do 2 f_equal. lia.
Qed.

Lemma nextStep_prevStep_inverse_witness :
  let e := three_step_engine in
  (0 ≤ currentStep e < Z.of_nat (length (steps e)))
  ∧ ((nextStep e).1 = true → prevStep (nextStep e).2 = (true, e))
  ∧ ((prevStep e).1 = true → nextStep (prevStep e).2 = (true, e)).
Proof.
  intros e.
  assert (0 ≤ currentStep e < Z.of_nat (length (steps e))) as H by (simpl; lia).
  split; [exact H|]. exact (nextStep_prevStep_inverse e H).
Defined.

Lemma getCurrentStep_is_Some e :
  is_Some (getCurrentStep e) ↔ 0 ≤ currentStep e < Z.of_nat (length (steps e)).
Proof.
  unfold getCurrentStep. destruct (decide (0 ≤ currentStep e)) as [Hge|Hlt].
  - rewrite lookup_lt_is_Some. lia.
  - split; [by intros [? ?]|lia].
Qed.

(** X10: [getCurrentStep] is defined exactly when the cursor is inside the
    log.  After [buildTree], on any table, it is the initial step, and once
    [nextStep] has been called [steps.length - 1] times it is the final
    step, which has no forest. *)
Theorem getCurrentStep_after_buildTree rand freqMap s :
  (∀ e, is_Some (getCurrentStep e) ↔ 0 ≤ currentStep e < Z.of_nat (length (steps e)))
  ∧ ∃ r s' init final,
      buildTree rand freqMap s = Done r s'
      ∧ getCurrentStep (this s') = Some init
      ∧ description init = "Starting with the following nodes:"
      ∧ is_Some (nodes init)
      ∧ getCurrentStep (nextStep_times (length (steps (this s')) - 1) (this s')) = Some final
      ∧ description final = "Huffman tree construction complete!"
      ∧ nodes final = None.
Proof.
  split; [apply getCurrentStep_is_Some|].
  assert (∃ r s' qs st,
    buildTree rand freqMap s = Done r s'
    ∧ this s' = set_steps
        (mkStep "Starting with the following nodes:" (Some qs) []
           :: st ++ [mkStep "Huffman tree construction complete!" None []])
        (set_currentStep 0 (this s))) as (r & s' & qs & st & Ebuild & Hthis).
  { destruct freqMap as [|entry freqMap].
    - eexists None, _, [], []. split; [apply buildTree_empty|done].
    - destruct (buildTree_spec rand (entry :: freqMap) s)
        as (root & t & ts & qs & st & s' & Ebuild & _ & Hthis & _); [done|].
      by exists (Some root), s', qs, st. }
  exists r, s', (mkStep "Starting with the following nodes:" (Some qs) []),
    (mkStep "Huffman tree construction complete!" None []).
  split; [done|]. split; [by rewrite Hthis|]. split; [done|]. split; [by eexists|].
  split; [|done].
  rewrite nextStep_times_cursor by (rewrite Hthis; simpl; lia).
  rewrite Hthis. unfold getCurrentStep, set_currentStep, set_steps. simpl.
  rewrite length_app. simpl. rewrite decide_True by lia.
  replace (Z.to_nat (0 + Z.of_nat (length st + 1 - 0)%nat)) with (S (length st)) by lia.
  simpl. rewrite lookup_app_r by lia. by rewrite Nat.sub_diag.
Qed.

(** ** Inputs the loop does not see *)

(** X11: on the empty table [buildTree] returns [undefined]; it allocates
    nothing, draws no identifier, keeps [codes], and records two steps, the
    initial one with an empty forest and the final one.  [generateCodes] on
    that result throws and leaves the state as it is. *)
Theorem buildTree_empty_table rand s :
  ∃ s',
    buildTree rand [] s = Done None s'
    ∧ heap s' = heap s ∧ draws s' = draws s
    ∧ codes (this s') = codes (this s)
    ∧ currentStep (this s') = 0
    ∧ steps (this s') = [mkStep "Starting with the following nodes:" (Some []) [];
                         mkStep "Huffman tree construction complete!" None []]
    ∧ generateCodes None "" s' = Throws s'.
Proof.
  eexists. split; [apply buildTree_empty|]. split_and!; try done.
  unfold generateCodes. simpl. by destruct (length (heap s)).
Qed.

(** X12: code derivation is not all-or-nothing on a node with exactly one
    child.  With only a right child it throws at once; with only a left
    child, denoting a proper tree, it throws after binding the codes of the
    left subtree, which stay in [codes]. *)
Theorem generateCodes_one_child a o path s :
  heap s !! a = Some o →
  (HuffmanNode.left o = None → HuffmanNode.right o ≠ None →
   generateCodes (Some a) path s = Throws s)
  ∧ (∀ l, HuffmanNode.right o = None →
       repr anywhere (heap s) (HuffmanNode.left o) l → proper l →
       (height l < length (heap s))%nat →
       generateCodes (Some a) path s
         = Throws (mkState (heap s) (draws s)
                     (set_codes (bind_codes (codes (this s)) (tree_codes l (path +:+ "0")))
                                (this s)))).
Proof.
  intros Ha. pose proof (lookup_lt_Some _ _ _ Ha) as Hlt.
  unfold generateCodes. destruct (length (heap s)) as [|fuel] eqn:Elen; [lia|].
  split.
  - intros Hleft Hright. simpl.
    erewrite bind_eq by (by apply read_eq).
    unfold HuffmanNode.isLeaf. rewrite Hleft.
    destruct (HuffmanNode.right o) as [r|] eqn:Er; [|done]. simpl.
    erewrite bind_eq by (by apply read_eq). rewrite Hleft.
    unfold bind. by destruct fuel.
  - intros l Hright Hl Hproper Hh.
    destruct (repr_proper_Some _ _ _ _ Hproper Hl) as [al Eal].
    assert (HuffmanNode.isLeaf o = false) as Hleaf
      by (unfold HuffmanNode.isLeaf; by rewrite Eal).
    simpl. erewrite bind_eq by (by apply read_eq). rewrite Hleaf.
    erewrite bind_eq by (by apply read_eq).
    erewrite bind_eq by (apply generateCodes_rec_spec; [exact Hproper|exact Hl|lia]).
    erewrite bind_eq by (by apply read_eq). rewrite Hright.
    by destruct fuel.
Qed.

Lemma generateCodes_one_child_witness :
  let a := 1%nat in
  let o := HuffmanNode.mk None 5 (Some 0%nat) None "n1" in
  let s := one_child_state in
  let path := "" in
  heap s !! a = Some o
  ∧ (HuffmanNode.left o = None → HuffmanNode.right o ≠ None →
     generateCodes (Some a) path s = Throws s)
  ∧ (∀ l, HuffmanNode.right o = None →
       repr anywhere (heap s) (HuffmanNode.left o) l → proper l →
       (height l < length (heap s))%nat →
       generateCodes (Some a) path s
         = Throws (mkState (heap s) (draws s)
                     (set_codes (bind_codes (codes (this s)) (tree_codes l (path +:+ "0")))
                                (this s)))).
Proof.
  intros a o s path.
  assert (heap s !! a = Some o) as H by reflexivity.
  split; [exact H|]. exact (generateCodes_one_child a o path s H).
Defined.

(** ** Auto-play *)

Lemma nextStep_keeps e :
  isPlaying (nextStep e).2 = isPlaying e
  ∧ animationTimeout (nextStep e).2 = animationTimeout e
  ∧ animationSpeed (nextStep e).2 = animationSpeed e
  ∧ steps (nextStep e).2 = steps e
  ∧ codes (nextStep e).2 = codes e.
Proof. unfold nextStep. by destruct (decide _). Qed.

(** [playStep] on a page where nothing is pending and the engine is
    playing: either the cursor could not move and the engine stops, or it
    moved by one and exactly one timer is pending. *)
Lemma playStep_cases notify p :
  timers p = [] → isPlaying (engine p) = true →
  let e := engine p in
  (¬ currentStep e < Z.of_nat (length (steps e)) - 1
   ∧ playStep notify p
     = mkPage (set_isPlaying false e) [] (next_handle p)
              (if notify then S (calls p) else calls p))
  ∨ (currentStep e < Z.of_nat (length (steps e)) - 1
     ∧ playStep notify p
       = mkPage (set_animationTimeout (Some (next_handle p))
                   (set_currentStep (currentStep e + 1) e))
                [mkTimer (next_handle p) (animationSpeed e) notify]
                (S (next_handle p))
                (if notify then S (calls p) else calls p)).
Proof.
  destruct p as [e tm nh cl]. simpl. intros -> Hplay.
  unfold playStep, nextStep, with_engine, call_back, setTimeout. simpl.
  destruct (decide (currentStep e < Z.of_nat (length (steps e)) - 1)) as [Hlt|Hge].
  - right. split; [done|]. simpl. rewrite Hplay. reflexivity.
  - left. split; [done|]. reflexivity.
Qed.

Lemma playStep_invariant notify p :
  timers p = [] → isPlaying (engine p) = true →
  (0 < next_handle p)%nat →
  (∀ h, animationTimeout (engine p) = Some h → (0 < h < next_handle p)%nat) →
  one_timer_at_most (playStep notify p).
Proof.
  intros Htm Hplay Hnh Hbound.
  destruct (playStep_cases notify p Htm Hplay) as [[_ ->]|[_ ->]]; unfold one_timer_at_most; simpl.
  - split_and!; [done|done|]. by left.
  - split_and!; [lia| |].
    + intros h [= <-]. lia.
    + right. by eexists.
Qed.

Lemma fire_Some h p p' :
  fire h p = Some p' →
  ∃ t, t ∈ timers p ∧ handle t = h ∧ p' = playStep (notifies t) (clearTimeout h p).
Proof.
  unfold fire. destruct (list_find _ _) as [[i t]|] eqn:E; [|done].
  intros [= <-]. apply list_find_Some in E as (Hi & Ht & _).
  exists t. split_and!; [|done..]. by eapply list_elem_of_lookup_2.
Qed.

Lemma clear_pending t p :
  timers p = [t] → timers (clearTimeout (handle t) p) = [].
Proof.
  intros Htm. unfold clearTimeout. simpl. rewrite Htm.
  rewrite filter_cons, decide_False by (by intros ?). done.
Qed.

Lemma page_event_invariant p p' :
  one_timer_at_most p → page_event p p' → one_timer_at_most p'.
Proof.
  intros Hinv Hev.
  destruct Hev as [notify p|p|p|speed p|h p p' Hfire|f p Hf];
    pose proof Hinv as (Hnh & Hbound & Hcase).
  - unfold play. destruct (isPlaying (engine p)) eqn:Hplay; [done|].
    destruct Hcase as [[Htm _]|(t & _ & _ & Ht)]; [|congruence].
    by apply playStep_invariant.
  - unfold pause. simpl.
    destruct (animationTimeout (engine p)) as [[|h]|] eqn:Eh;
      unfold one_timer_at_most, with_engine, clearTimeout; simpl.
    + specialize (Hbound 0%nat eq_refl). lia.
    + split_and!; [done|done|]. left. split; [|done].
      destruct Hcase as [[-> _]|(t & Htm & Et & _)]; [done|].
      injection Et as ->. by rewrite Htm, filter_cons, decide_False by (by intros ?).
    + rewrite Eh. split_and!; [done|done|].
      left. split; [|done]. destruct Hcase as [[-> _]|(t & _ & Et & _)]; [done|congruence].
  - unfold reset_page. simpl.
    destruct (animationTimeout (engine p)) as [[|h]|] eqn:Eh;
      unfold one_timer_at_most, with_engine, clearTimeout; simpl.
    + specialize (Hbound 0%nat eq_refl). lia.
    + split_and!; [done|done|]. left. split; [|done].
      destruct Hcase as [[-> _]|(t & Htm & Et & _)]; [done|].
      injection Et as ->. by rewrite Htm, filter_cons, decide_False by (by intros ?).
    + rewrite Eh. split_and!; [done|done|].
      left. split; [|done]. destruct Hcase as [[-> _]|(t & _ & Et & _)]; [done|congruence].
  - done.
  - apply fire_Some in Hfire as (t & Hin & Hh & ->).
    destruct Hcase as [[Htm _]|(t' & Htm & Et & Hplay)].
    { rewrite Htm in Hin. by apply elem_of_nil in Hin. }
    rewrite Htm in Hin. apply list_elem_of_singleton in Hin as ->. subst h.
    apply playStep_invariant; [by apply clear_pending|done..].
  - unfold one_timer_at_most, with_engine. simpl.
    destruct (Hf (engine p)) as [-> ->]. done.
Qed.



Lemma fire_single t p :
  timers p = [t] →
  fire (handle t) p = Some (playStep (notifies t) (clearTimeout (handle t) p)).
Proof.
  intros Htm. unfold fire. rewrite Htm. simpl. by rewrite decide_True.
Qed.

Lemma run_timers_single n t p :
  timers p = [t] →
  run_timers (S n) p
  = run_timers n (playStep (notifies t) (clearTimeout (handle t) p)).
Proof.
  intros Htm. simpl. rewrite Htm. by rewrite (fire_single t p Htm).
Qed.

(** [playStep] and the timers it sets off, from a page where nothing is
    pending and the engine is playing, [n] steps before the end of the
    log. *)
Lemma run_playStep notify n : ∀ p,
  timers p = [] → isPlaying (engine p) = true →
  Z.of_nat n = Z.of_nat (length (steps (engine p))) - 1 - currentStep (engine p) →
  let p' := run_timers n (playStep notify p) in
  (currentStep (engine p') = Z.of_nat (length (steps (engine p))) - 1
   ∧ isPlaying (engine p') = false
   ∧ timers p' = []
   ∧ steps (engine p') = steps (engine p)
   ∧ codes (engine p') = codes (engine p)
   ∧ calls p' = (calls p + (if notify then S n else 0))%nat)
  ∧ ∀ k, (k < n)%nat →
      ∃ t, timers (run_timers k (playStep notify p)) = [t]
           ∧ isPlaying (engine (run_timers k (playStep notify p))) = true.
Proof.
  induction n as [|n IH]; intros p Htm Hplay Hn; cbv zeta.
  - destruct (playStep_cases notify p Htm Hplay) as [[Hend E]|[Hlt _]]; [|lia].
    simpl. rewrite E. simpl. split; [|intros k Hk; lia].
    split_and!; try done; [lia|]. destruct notify; lia.
  - destruct (playStep_cases notify p Htm Hplay) as [[Hend _]|[Hlt E]]; [lia|].
    pose (t := mkTimer (next_handle p) (animationSpeed (engine p)) notify).
    assert (timers (playStep notify p) = [t]) as Htm1 by (by rewrite E).
    assert (∀ m, run_timers (S m) (playStep notify p)
                 = run_timers m (playStep notify
                     (clearTimeout (next_handle p) (playStep notify p)))) as Erun
      by (intros m; exact (run_timers_single m t _ Htm1)).
    assert (engine (clearTimeout (next_handle p) (playStep notify p))
            = set_animationTimeout (Some (next_handle p))
                (set_currentStep (currentStep (engine p) + 1) (engine p))) as Ee2
      by (by rewrite E).
    assert (calls (clearTimeout (next_handle p) (playStep notify p))
            = if notify then S (calls p) else calls p) as Ec2
      by (by rewrite E).
    destruct (IH (clearTimeout (next_handle p) (playStep notify p)))
      as [(Hc & Hp & Ht & Hs & Hcd & Hcl) Hmid].
    { exact (clear_pending t _ Htm1). }
    { by rewrite Ee2. }
    { rewrite Ee2. simpl. lia. }
    rewrite Ee2 in Hc, Hs, Hcd. simpl in Hc, Hs, Hcd. rewrite Ec2 in Hcl.
    split.
    + rewrite Erun. split_and!; try done. rewrite Hcl. destruct notify; lia.
    + intros [|k] Hk.
      * exists t. split; [done|]. simpl. by rewrite E.
      * destruct (Hmid k) as (t' & Ht' & Hp'); [lia|].
        exists t'. by rewrite Erun.
Qed.

(** X14: [play] on a page where the engine is not playing and the cursor is
    inside the log, followed by the timers it sets off, walks the cursor to
    the last step: after [n] expiries, where [n] is the number of steps
    ahead of the cursor, the cursor is at the last index, [isPlaying] is
    false and no timer is pending; [callback] has been called [n + 1] times;
    the log and the codes are untouched.  Until then exactly one timer is
    pending and the engine is playing. *)
Theorem autoplay_reaches_the_end notify p :
  timers p = [] → isPlaying (engine p) = false →
  0 ≤ currentStep (engine p) < Z.of_nat (length (steps (engine p))) →
  let n := (length (steps (engine p)) - 1 - Z.to_nat (currentStep (engine p)))%nat in
  let p' := run_timers n (play notify p) in
  (currentStep (engine p') = Z.of_nat (length (steps (engine p))) - 1
   ∧ isPlaying (engine p') = false
   ∧ timers p' = []
   ∧ steps (engine p') = steps (engine p)
   ∧ codes (engine p') = codes (engine p)
   ∧ calls p' = (calls p + (if notify then S n else 0))%nat)
  ∧ ∀ k, (k < n)%nat →
      ∃ t, timers (run_timers k (play notify p)) = [t]
           ∧ isPlaying (engine (run_timers k (play notify p))) = true.
Proof.
  intros Htm Hplay Hcur n p'. unfold p', play. rewrite Hplay.
  exact (run_playStep notify n (with_engine (set_isPlaying true) p) Htm eq_refl ltac:(simpl; lia)).
Qed.

Lemma autoplay_reaches_the_end_witness :
  let p := loaded_page in
  let notify := true in
  timers p = [] ∧ isPlaying (engine p) = false
  ∧ 0 ≤ currentStep (engine p) < Z.of_nat (length (steps (engine p)))
  ∧ let n := (length (steps (engine p)) - 1 - Z.to_nat (currentStep (engine p)))%nat in
    let p' := run_timers n (play notify p) in
    (currentStep (engine p') = Z.of_nat (length (steps (engine p))) - 1
     ∧ isPlaying (engine p') = false
     ∧ timers p' = []
     ∧ steps (engine p') = steps (engine p)
     ∧ codes (engine p') = codes (engine p)
     ∧ calls p' = (calls p + (if notify then S n else 0))%nat)
    ∧ ∀ k, (k < n)%nat →
        ∃ t, timers (run_timers k (play notify p)) = [t]
             ∧ isPlaying (engine (run_timers k (play notify p))) = true.
Proof.
  intros p notify.
  assert (0 ≤ currentStep (engine p) < Z.of_nat (length (steps (engine p)))) as H
    by (simpl; lia).
  split; [reflexivity|]. split; [reflexivity|]. split; [exact H|].
  exact (autoplay_reaches_the_end notify p eq_refl eq_refl H).
Defined.

(** X15: [pause] stops auto-play for good: on a page where at most the
    engine's own timer is pending ([one_timer_at_most], which holds of every
    page reached from a new one), after [pause] the engine is not playing,
    holds no timer handle and no timer is pending, so nothing can expire;
    the cursor, the log and the codes are as they were. *)
Theorem pause_stops_autoplay p :
  one_timer_at_most p →
  isPlaying (engine (pause p)) = false
  ∧ animationTimeout (engine (pause p)) = None
  ∧ timers (pause p) = []
  ∧ (∀ h, fire h (pause p) = None)
  ∧ (∀ n, run_timers n (pause p) = pause p)
  ∧ currentStep (engine (pause p)) = currentStep (engine p)
  ∧ steps (engine (pause p)) = steps (engine p)
  ∧ codes (engine (pause p)) = codes (engine p).
Proof.
  intros Hinv.
  destruct (page_event_invariant _ _ Hinv (event_pause p)) as (_ & _ & Hcase).
  destruct Hinv as (_ & Hbound & _).
  assert (animationTimeout (engine (pause p)) = None
          ∧ currentStep (engine (pause p)) = currentStep (engine p)
          ∧ steps (engine (pause p)) = steps (engine p)
          ∧ codes (engine (pause p)) = codes (engine p)
          ∧ isPlaying (engine (pause p)) = false) as (Hnone & Hc & Hs & Hcd & Hp).
  { unfold pause. simpl. destruct (animationTimeout (engine p)) as [[|h]|] eqn:Eh; simpl.
    - specialize (Hbound 0%nat eq_refl). lia.
    - done.
    - by rewrite Eh. }
  destruct Hcase as [[Htm _]|(t & _ & _ & Ht)]; [|congruence].
  split_and!; try done.
  - intros h. unfold fire. by rewrite Htm.
  - intros [|n]; [done|]. simpl. by rewrite Htm.
Qed.

Lemma playing_page_one_timer : one_timer_at_most playing_page.
Proof.
  unfold one_timer_at_most. simpl. split_and!; [lia| |].
  - intros h [= <-]. lia.
  - right. eexists. by split_and!.
Qed.

Lemma pause_stops_autoplay_witness :
  let p := playing_page in
  one_timer_at_most p
  ∧ isPlaying (engine (pause p)) = false
  ∧ animationTimeout (engine (pause p)) = None
  ∧ timers (pause p) = []
  ∧ (∀ h, fire h (pause p) = None)
  ∧ (∀ n, run_timers n (pause p) = pause p)
  ∧ currentStep (engine (pause p)) = currentStep (engine p)
  ∧ steps (engine (pause p)) = steps (engine p)
  ∧ codes (engine (pause p)) = codes (engine p).
Proof.
  intros p. split; [exact playing_page_one_timer|].
  exact (pause_stops_autoplay p playing_page_one_timer).
Defined.

(** X16: [reset] does to the engine's fields what the engine-level model
    [reset] says, and cancels the pending timer: afterwards the cursor is
    at 0, the codes are gone, the log is kept, the engine is not playing
    and nothing can expire. *)
Theorem reset_cancels_autoplay p :
  one_timer_at_most p →
  engine (reset_page p) = reset (engine p)
  ∧ timers (reset_page p) = []
  ∧ (∀ h, fire h (reset_page p) = None)
  ∧ currentStep (engine (reset_page p)) = 0
  ∧ codes (engine (reset_page p)) = ∅
  ∧ steps (engine (reset_page p)) = steps (engine p)
  ∧ isPlaying (engine (reset_page p)) = false.
Proof.
  intros Hinv.
  destruct (page_event_invariant _ _ Hinv (event_reset p)) as (_ & _ & Hcase).
  destruct Hinv as (_ & Hbound & _).
  assert (engine (reset_page p) = reset (engine p)) as He.
  { unfold reset_page, reset. simpl.
    destruct (animationTimeout (engine p)) as [[|h]|] eqn:Eh; simpl.
    - specialize (Hbound 0%nat eq_refl). lia.
    - done.
    - unfold set_isPlaying. simpl. by rewrite Eh. }
  assert (isPlaying (engine (reset_page p)) = false) as Hp by (by rewrite He).
  destruct Hcase as [[Htm _]|(t & _ & _ & Ht)]; [|congruence].
  split_and!; try done; try (by rewrite He).
  intros h. unfold fire. by rewrite Htm.
Qed.

Lemma reset_cancels_autoplay_witness :
  let p := playing_page in
  one_timer_at_most p
  ∧ engine (reset_page p) = reset (engine p)
  ∧ timers (reset_page p) = []
  ∧ (∀ h, fire h (reset_page p) = None)
  ∧ currentStep (engine (reset_page p)) = 0
  ∧ codes (engine (reset_page p)) = ∅
  ∧ steps (engine (reset_page p)) = steps (engine p)
  ∧ isPlaying (engine (reset_page p)) = false.
Proof.
  intros p. split; [exact playing_page_one_timer|].
  exact (reset_cancels_autoplay p playing_page_one_timer).
Defined.
